(** * sails-github: the adapter's pagination loop and route resolver

    A shallow embedding of [lib/adapter.js]: the link-header parser
    [parseLinks], the paginating fetcher [getRequest] and the route
    resolver [route], followed by the properties of each.

    Conventions of the embedding.
    - A JavaScript string is a [string] whose characters are its code
      units; the development covers code units below 256.
    - A JavaScript exception is an abrupt completion [Throw e]; a function
      that can throw returns a [completion].
    - The network is a script: the list of replies the [request] library
      will hand to its callbacks, in the order the requests are made.  A
      request beyond the script is never answered.
    - What a run does to the outside world is its trace: the requests it
      issued and the calls it made to the caller's completion callback.
      The caller's callback is taken to return normally.  An exception
      thrown while a request callback runs has no handler; the run ends
      with it.
    - Page numbers are integers; the adapter counts them in double
      precision, which is exact below 2^53.
    - The module is loaded as Node loads it: the global object has no
      property named [e]. *)

From Stdlib Require Import ZArith Ascii String List DecimalString Lia.
From stdpp Require Import base gmap strings list.

Local Open Scope Z_scope.

(** ** JavaScript values and built-ins used by the adapter *)

Module JS.

(** *** Errors and completions *)

Inductive jserror : Type :=
| Error (message : string)        (* new Error(message) *)
| TypeError                       (* thrown by the engine *)
| RangeError                      (* thrown by the engine *)
| ReferenceError (name : string)  (* unresolvable identifier [name] *)
| SyntaxError (message : string)  (* thrown by JSON.parse *)
| TransportError (code : string). (* error object supplied by request *)

Inductive completion (A : Type) : Type :=
| Normal (a : A)
| Throw (e : jserror).
Arguments Normal {A} a.
Arguments Throw {A} e.

(** *** Characters *)

(* LineTerminator code units below 256: LF and CR.  The regular
   expression atom [.] matches everything else. *)
Definition is_line_terminator (c : ascii) : bool :=
  match c with
  | "010"%char | "013"%char => true
  | _ => false
  end.

(* WhiteSpace and LineTerminator code units below 256, the ones
   String.prototype.trim strips: TAB, LF, VT, FF, CR, SP, NBSP. *)
Definition is_white_space (c : ascii) : bool :=
  match c with
  | "009"%char | "010"%char | "011"%char | "012"%char | "013"%char
  | " "%char | "160"%char => true
  | _ => false
  end.

(** *** String.prototype.trim *)

Fixpoint trimStart (s : string) : string :=
  match s with
  | EmptyString => EmptyString
  | String c s' => if is_white_space c then trimStart s' else s
  end.

Fixpoint trimEnd (s : string) : string :=
  match s with
  | EmptyString => EmptyString
  | String c s' =>
      match trimEnd s' with
      | EmptyString => if is_white_space c then EmptyString else String c EmptyString
      | t => String c t
      end
  end.

Definition trim (s : string) : string := trimEnd (trimStart s).

(** *** String.prototype.split with a one-character separator *)

Fixpoint split (sep : ascii) (s : string) : list string :=
  match s with
  | EmptyString => [EmptyString]
  | String c s' =>
      if Ascii.eqb c sep then EmptyString :: split sep s'
      else match split sep s' with
           | [] => [String c EmptyString]
           | h :: t => String c h :: t
           end
  end.

(** *** String.prototype.indexOf, as the test [s.indexOf(pat) !== -1] *)

Fixpoint includes (pat s : string) : bool :=
  String.prefix pat s ||
  match s with
  | EmptyString => false
  | String _ s' => includes pat s'
  end.

(* The global match of a one-character pattern, as counted on lines
   119-120: the number of occurrences of [c], 0 when there is none. *)
Fixpoint count_char (c : ascii) (s : string) : nat :=
  match s with
  | EmptyString => 0%nat
  | String d s' => if Ascii.eqb d c then S (count_char c s') else count_char c s'
  end.

(** *** The two regular expressions of [parseLinks]

    [greedy_until close s] is what the group captures when a greedy
    dot-star group followed by the character [close] is matched at the
    start of [s]: the dot takes no line terminator and the star is
    greedy, so the capture runs to the last [close] of the first line
    of [s]; [None] when that line has no [close]. *)

Fixpoint greedy_until (close : ascii) (s : string) : option string :=
  match s with
  | EmptyString => None
  | String c s' =>
      if is_line_terminator c then None
      else match greedy_until close s' with
           | Some p => Some (String c p)
           | None => if Ascii.eqb c close then Some EmptyString else None
           end
  end.

Fixpoint drop_prefix (pat s : string) : option string :=
  match pat, s with
  | EmptyString, _ => Some s
  | String a pat', String b s' => if Ascii.eqb a b then drop_prefix pat' s' else None
  | String _ _, EmptyString => None
  end.

Definition dquote : ascii := "034"%char.

(* The literal text [rel=] followed by a double quote. *)
Definition rel_open : string := "rel=" +:+ String dquote EmptyString.

(* The capture of the pattern at the start of [s], if it matches there. *)
Definition match_here (open : string) (close : ascii) (s : string) : option string :=
  match drop_prefix open s with
  | Some rest => greedy_until close rest
  | None => None
  end.

(* Group 1 of the unanchored pattern of line 33 ([rel=], a quote, a
   greedy dot-star group, a quote): the leftmost position where the
   pattern matches wins. *)
Fixpoint exec_rel (s : string) : option string :=
  match match_here rel_open dquote s with
  | Some k => Some k
  | None =>
      match s with
      | EmptyString => None
      | String _ s' => exec_rel s'
      end
  end.

(* Group 1 of the pattern of line 34 (an opening angle bracket at the
   start of the input, a greedy dot-star group, a closing bracket). *)
Definition exec_source (s : string) : option string :=
  match_here "<" ">"%char s.

End JS.

Module Values.
Import JS.

(** *** Values

    The values the adapter handles: the arguments of a routed call and
    the results of JSON.parse.  Numbers are the integers (printed in
    decimal, as the engine prints integers of magnitude below 10^21);
    a function is represented by its source text, which is also how it
    prints. *)

#[warnings="-register-all"] Inductive value : Type :=
| VUndefined
| VNull
| VBool (b : bool)
| VNum (n : Z)
| VStr (s : string)
| VArr (elements : list value)
| VObj (fields : list (string * value))
| VFun (source : string).

(* ToBoolean *)
Definition truthy (v : value) : bool :=
  match v with
  | VUndefined | VNull => false
  | VBool b => b
  | VNum n => negb (n =? 0)
  | VStr s => negb (String.eqb s EmptyString)
  | VArr _ | VObj _ | VFun _ => true
  end.

Definition Number_toString (n : Z) : string :=
  NilZero.string_of_int (Z.to_int n).

Fixpoint join (sep : string) (l : list string) : string :=
  match l with
  | [] => EmptyString
  | [x] => x
  | x :: l' => x +:+ sep +:+ join sep l'
  end.

(* ToString; an array prints as its elements joined by a comma, with
   undefined and null elements printed as the empty string. *)
Fixpoint ToString (v : value) : string :=
  match v with
  | VUndefined => "undefined"
  | VNull => "null"
  | VBool true => "true"
  | VBool false => "false"
  | VNum n => Number_toString n
  | VStr s => s
  | VArr l =>
      join ","
        (List.map (fun x => match x with
                            | VUndefined | VNull => EmptyString
                            | _ => ToString x
                            end) l)
  | VObj _ => "[object Object]"
  | VFun source => source
  end.

(* Array.prototype.join *)
Definition Array_join (sep : string) (l : list value) : string :=
  join sep
    (List.map (fun x => match x with
                        | VUndefined | VNull => EmptyString
                        | _ => ToString x
                        end) l).

(* Array.prototype.shift and Array.prototype.pop: the element removed
   (undefined on an empty array) and the array left. *)
Definition shift (a : list value) : value * list value :=
  match a with
  | [] => (VUndefined, [])
  | x :: a' => (x, a')
  end.

Definition pop (a : list value) : value * list value :=
  match List.rev a with
  | [] => (VUndefined, [])
  | x :: r => (x, List.rev r)
  end.

(* Array.apply([], arguments), that is the Array constructor applied
   to the arguments: a single numeric argument is taken as a length
   (an array of that many holes, which read as undefined), any other
   argument list as the elements. *)
Definition Array_apply (arguments : list value) : completion (list value) :=
  match arguments with
  | [VNum n] =>
      if (0 <=? n) && (n <? 2 ^ 32)
      then Normal (List.repeat VUndefined (Z.to_nat n))
      else Throw RangeError
  | _ => Normal arguments
  end.

(* data.concat(next): Array.prototype.concat spreads an array argument
   and appends any other value as one element; on a string receiver it
   is String.prototype.concat; no other value modelled here has a
   callable concat property. *)
Definition concat (data next : value) : completion value :=
  match data with
  | VArr l =>
      Normal (VArr (l ++ match next with VArr l' => l' | v => [v] end))
  | VStr s => Normal (VStr (s +:+ ToString next))
  | _ => Throw TypeError
  end.

End Values.

(** ** The adapter *)

Module Adapter.
Import JS Values.

(** *** The outside world *)

(* What the request library hands to the callback of one request: an
   error, or a response with its status code, its link header (absent
   when [None]) and its body.  The body is represented by the outcome of
   JSON.parse on it: the parsed value, or the exception thrown. *)
Inductive reply : Type :=
| Failure (err : jserror)
| Response (statusCode : Z) (link : option string) (body : completion value).

(* The observable actions of a run: a GET issued for a URL (method and
   headers are the same for every request), and a call of a function
   value supplied by the caller, with its error argument (null when
   [None]) and its second argument (undefined when not passed). *)
Inductive event : Type :=
| Request (url : string)
| Callback (f : string) (err : option jserror) (data : value).

(* A computation: the trace it leaves and how it completes. *)
Definition M (A : Type) : Type := list event * completion A.

Definition ret {A} (a : A) : M A := ([], Normal a).
Definition throw {A} (e : jserror) : M A := ([], Throw e).
Definition tell (ev : event) : M unit := ([ev], Normal tt).
Definition lift {A} (c : completion A) : M A := ([], c).

Definition bind {A B} (m : M A) (k : A → M B) : M B :=
  match m with
  | (t, Normal a) => let '(t', r) := k a in (t ++ t', r)
  | (t, Throw e) => (t, Throw e)
  end.

Notation "x <- m ;; k" := (bind m (fun x => k))
  (at level 100, m at next level, right associativity).
Notation "m ;;; k" := (bind m (fun _ => k))
  (at level 100, right associativity).

Definition trace {A} (m : M A) : list event := fst m.
Definition outcome {A} (m : M A) : completion A := snd m.

(** *** Adapter specific variables (line 13) *)

Definition endpoint : string := "https://api.github.com/".

(** *** parseLinks (lines 27-39) *)

(* result[key] = source on an object created by an object literal, with
   string values: an own property is created or overwritten, except for
   the key __proto__, the accessor inherited from Object.prototype,
   whose setter ignores a string. *)
Definition set_property (result : gmap string string) (key source : string)
  : gmap string string :=
  if decide (key = "__proto__") then result else <[key := source]> result.

(* The loop of lines 31-36; indexing the null of a failed match throws
   a TypeError. *)
Fixpoint parseLinks_loop (entries : list string) (result : gmap string string)
  : completion (gmap string string) :=
  match entries with
  | [] => Normal result
  | e :: entries' =>
      let entry := trim e in
      match exec_rel entry with
      | None => Throw TypeError
      | Some key =>
          match exec_source entry with
          | None => Throw TypeError
          | Some source => parseLinks_loop entries' (set_property result key source)
          end
      end
  end.

Definition parseLinks (linksHeader : string) : completion (gmap string string) :=
  parseLinks_loop (split ","%char linksHeader) ∅.

(** *** getRequest (lines 49-93) *)

(* The functions that getRequest receives as [cb]: the value handed over
   by the caller of a routed operation, or the closure of lines 83-86,
   which captures [data] and the enclosing [cb]. *)
Inductive callback : Type :=
| UserCb (cb : value)
| PageCb (data : value) (cb : callback).

(* Calling a value supplied by the caller: a function is called (the
   call is recorded; the function is taken to return normally), anything
   else is not callable. *)
Definition call_value (cb : value) (err : option jserror) (data : value) : M unit :=
  match cb with
  | VFun f => tell (Callback f err data)
  | _ => throw TypeError
  end.

(* cb(err, data).  In the closure of lines 83-86 the identifier [e] of
   line 84 is bound by no enclosing scope (the catch parameter of line
   74 is local to the catch block), so evaluating the argument of the
   call throws a ReferenceError. *)
Fixpoint call (cb : callback) (err : option jserror) (data : value) : M unit :=
  match cb with
  | UserCb f => call_value f err data
  | PageCb page_data outer =>
      match err with
      | Some _ => throw (ReferenceError "e")
      | None =>
          all <- lift (concat page_data data) ;;
          call outer None all
      end
  end.

(* page = page || 1 (line 50) *)
Definition page_or_1 (page : option Z) : Z :=
  match page with
  | None => 1
  | Some p => if p =? 0 then 1 else p
  end.

(* Lines 53-54. *)
Definition request_url (method : string) (token : value) (page : option Z) : string :=
  if includes "http" method then method
  else endpoint +:+ method +:+ "?access_token=" +:+ ToString token
       +:+ "&per_page=100&page=" +:+ Number_toString (page_or_1 page).

(* Line 79: res.headers.link && parseLinks(res.headers.link); [None] is
   a falsy value (undefined or the empty string). *)
Definition header_links (link : option string)
  : completion (option (gmap string string)) :=
  match link with
  | None => Normal None
  | Some h =>
      if String.eqb h EmptyString then Normal None
      else match parseLinks h with
           | Normal links => Normal (Some links)
           | Throw e => Throw e
           end
  end.

(* Line 80: links && links.next, when truthy. *)
Definition links_next (links : option (gmap string string)) : option string :=
  match links with
  | None => None
  | Some l =>
      match l !! "next" with
      | Some next => if String.eqb next EmptyString then None else Some next
      | None => None
      end
  end.

(* getRequest against the replies still to come.  A request for which the
   script has no reply is never answered: its callback does not run. *)
Fixpoint getRequest (net : list reply) (method : string) (token : value)
    (cb : callback) (page : option Z) : M unit :=
  let page' := page_or_1 page in
  let url := request_url method token page in
  match net with
  | [] => tell (Request url)
  | r :: net' =>
      tell (Request url) ;;;
      match r with
      | Failure err => call cb (Some err) VUndefined
      | Response statusCode link body =>
          if negb (statusCode =? 200)
          then call cb (Some (Error "Invalid Response")) VUndefined
          else
            match body with
            | Throw e => call cb (Some e) VUndefined
            | Normal data =>
                links <- lift (header_links link) ;;
                match links_next links with
                | Some next =>
                    getRequest net' next VNull (PageCb data cb) (Some (page' + 1))
                | None => call cb None data
                end
            end
      end
  end.

(** *** route (lines 106-136) *)

(* numVars of lines 119-120 *)
Definition numVars (path : string) : nat := count_char ":"%char path.

(* The callback of the map of lines 122-127, threading the array [args]
   it shifts. *)
Fixpoint map_parts (parts : list string) (args : list value)
  : list value * list value :=
  match parts with
  | [] => ([], args)
  | part :: parts' =>
      if includes ":" part
      then let '(a, args') := shift args in
           let '(rest, args'') := map_parts parts' args' in
           (a :: rest, args'')
      else let '(rest, args') := map_parts parts' args in
           (VStr part :: rest, args')
  end.

(* Lines 122-127: the method string built from a path. *)
Definition build_method (path : string) (args : list value) : string :=
  Array_join "/" (fst (map_parts (split "/"%char path) args)).

(* The loop of lines 117-131 over the paths from index i on, followed by
   line 133; [paths] is the whole array, for the message. *)
Fixpoint route_loop (paths rest : list string) (args : list value)
    (accessToken cb : value) (net : list reply) : M unit :=
  match rest with
  | [] =>
      call_value cb
        (Some (Error ("incorrect number of parameters specified, must follow one of "
                      +:+ "the following: " +:+ ToString (VArr (List.map VStr paths)))))
        VUndefined
  | path :: rest' =>
      if Nat.eqb (numVars path) (length args)
      then getRequest net (build_method path args) accessToken (UserCb cb) None
      else route_loop paths rest' args accessToken cb net
  end.

(* The function returned by route(paths), applied to [arguments]. *)
Definition route (paths : list string) (arguments : list value)
    (net : list reply) : M unit :=
  args <- lift (Array_apply arguments) ;;
  let '(model, args) := shift args in
  let '(cb, args) := pop args in
  let '(accessToken, args) := pop args in
  if match model with VUndefined => true | _ => false end
     || negb (truthy cb) || negb (truthy accessToken)
  then
    if truthy cb
    then call_value cb
           (Some (Error "either model, callback, or accessToken was not specified"))
           VUndefined
    else ret tt
  else route_loop paths paths args accessToken cb net.

(** *** The adapter's operations (lines 170-180) *)

Definition getUser := route ["user"; "users/:user"].
Definition getUserOrgs := route ["user/orgs"; "users/:user/orgs"].
Definition getUserRepos := route ["user/repos"; "users/:user/repos"].
Definition getOrgRepos := route ["orgs/:org/repos"].
Definition getRepoContents := route ["repos/:owner/:repo/contents/:path"].
Definition getRepoBranches := route ["repos/:owner/:repo/branches"].

End Adapter.

(** ** Vocabulary of the specification *)

Module Spec.
Import JS Values Adapter.

(** *** Link headers *)

Fixpoint all_chars (P : ascii → bool) (s : string) : bool :=
  match s with
  | EmptyString => true
  | String c s' => P c && all_chars P s'
  end.

Definition is_char (c : ascii) : ascii → bool := fun d => Ascii.eqb d c.

(* A URL that can stand between the angle brackets of an entry: no
   comma, no double quote, no line break. *)
Definition url_ok (url : string) : bool :=
  all_chars (fun c => negb (is_char ","%char c) && negb (is_char dquote c)
                      && negb (is_line_terminator c)) url.

(* A relation name that can stand between the quotes of an entry: no
   comma, no closing angle bracket, no line break. *)
Definition rel_ok (rel : string) : bool :=
  all_chars (fun c => negb (is_char ","%char c) && negb (is_char ">"%char c)
                      && negb (is_line_terminator c)) rel.

(* An entry of a link header as the server writes it: the URL in angle
   brackets, a semicolon and a space, the quoted relation name, with
   white space allowed before and after. *)
Record entry : Type := Entry {
  pad_before : string;
  entry_url : string;
  entry_rel : string;
  pad_after : string
}.

(* The entry without the white space around it. *)
Definition entry_text (e : entry) : string :=
  "<" +:+ entry_url e +:+ ">; " +:+ rel_open +:+ entry_rel e +:+ String dquote EmptyString.

Definition render_entry (e : entry) : string :=
  pad_before e +:+ entry_text e +:+ pad_after e.

Definition well_formed (e : entry) : bool :=
  all_chars is_white_space (pad_before e) && url_ok (entry_url e)
  && rel_ok (entry_rel e) && all_chars is_white_space (pad_after e).

(* A link header: the entries separated by commas. *)
Definition render_header (entries : list entry) : string :=
  join "," (List.map render_entry entries).

(* The usual layout, one space after each comma, for links given as
   (URL, relation name). *)
Definition spaced (links : list (string * string)) : list entry :=
  match links with
  | [] => []
  | l :: links' =>
      Entry EmptyString (fst l) (snd l) EmptyString
      :: List.map (fun l' => Entry " " (fst l') (snd l') EmptyString) links'
  end.

(* What the loop of parseLinks does with one entry. *)
Definition record (links : gmap string string) (e : entry) : gmap string string :=
  set_property links (entry_rel e) (entry_url e).

(** *** Pages *)

(* A successful page as the server sends it: its link header and the
   elements of the array its body parses to. *)
Record page : Type := Page {
  page_link : option string;
  page_elements : list value
}.

Definition reply_of (pg : page) : reply :=
  Response 200 (page_link pg) (Normal (VArr (page_elements pg))).

(* A computation preceded by the events [t]. *)
Definition after {A} (t : list event) (m : M A) : M A :=
  (t ++ fst m, snd m).

(* What lines 79-80 make of a link header: the URL of the next page, if
   one is advertised. *)
Definition next_of (link : option string) : completion (option string) :=
  match header_links link with
  | Normal links => Normal (links_next links)
  | Throw e => Throw e
  end.

(* The requests for the pages that follow page [page], one per next URL:
   the i-th is made for the i-th URL, with no credential, as page
   [page + 1 + i]. *)
Fixpoint next_requests (page : Z) (nexts : list string) : list event :=
  match nexts with
  | [] => []
  | next :: nexts' =>
      Request (request_url next VNull (Some (page + 1)))
      :: next_requests (page + 1) nexts'
  end.

(* The calls of the function [f] in a trace. *)
Definition calls_of (f : string) (t : list event) : list event :=
  List.filter (fun ev => match ev with
                         | Callback g _ _ => String.eqb f g
                         | Request _ => false
                         end) t.

Definition requests_of (t : list event) : list event :=
  List.filter (fun ev => match ev with
                         | Request _ => true
                         | Callback _ _ _ => false
                         end) t.

(* The link header of the comment above parseLinks, for a first page
   of the user's repositories, and the URL it advertises as next. *)
Definition example_next : string :=
  "https://api.github.com/user/repos?page=2&per_page=100".

Definition example_header : string :=
  render_header
    (spaced [(example_next, "next");
             ("https://api.github.com/user/repos?page=50&per_page=100", "last")]).

(* The same first entry with the quotes around the relation name left
   out, and with the angle brackets around the URL left out. *)
Definition unquoted_header : string :=
  "<https://api.github.com/user/repos?page=2&per_page=100>; rel=next".

Definition unbracketed_header : string :=
  "https://api.github.com/user/repos?page=2&per_page=100; " +:+ rel_open
  +:+ "next" +:+ String dquote EmptyString.

(** *** Targets *)

(* The target contains the protocol marker. *)
Definition has_protocol_marker (target : string) : Prop :=
  ∃ before after : string, target = before +:+ "http" +:+ after.

(* A fully-qualified URL of the API: a scheme, then the rest. *)
Definition fully_qualified (target : string) : bool :=
  String.prefix "http://" target || String.prefix "https://" target.

(** *** Templates *)

Inductive segment : Type :=
| Literal (text : string)
| Placeholder.

(* A path segment holding a marker is a placeholder. *)
Definition segment_of (part : string) : segment :=
  if includes ":" part then Placeholder else Literal part.

Definition template_of (path : string) : list segment :=
  List.map segment_of (split "/"%char path).

(* How a positional argument prints inside a path. *)
Definition segment_text (v : value) : string :=
  match v with
  | VUndefined | VNull => EmptyString
  | _ => ToString v
  end.

(* Walk the segments in order; each placeholder takes the next unused
   positional argument, a literal passes through. *)
Fixpoint fill (t : list segment) (positional : list value) : list string :=
  match t with
  | [] => []
  | Literal text :: t' => text :: fill t' positional
  | Placeholder :: t' =>
      match positional with
      | a :: positional' => segment_text a :: fill t' positional'
      | [] => EmptyString :: fill t' []
      end
  end.

(* The first template, in descriptor order, whose marker count is the
   number of positional arguments. *)
Definition select (paths : list string) (positional : list value) : option string :=
  List.find (fun path => Nat.eqb (numVars path) (length positional)) paths.

(* Lines 108-111: the argument array taken apart into the model token,
   the positional arguments, the credential and the callback. *)
Definition invocation (arguments : list value)
  : completion (value * list value * value * value) :=
  match Array_apply arguments with
  | Normal args =>
      let '(model, args) := shift args in
      let '(cb, args) := pop args in
      let '(accessToken, args) := pop args in
      Normal (model, args, accessToken, cb)
  | Throw e => Throw e
  end.

Definition invalid_invocation_error : jserror :=
  Error "either model, callback, or accessToken was not specified".

Definition no_template_error (paths : list string) : jserror :=
  Error ("incorrect number of parameters specified, must follow one of the following: "
         +:+ join "," paths).

End Spec.

(** ** Further vocabulary: behaviour beyond the well-formed cases *)

Module Behaviour.
Import JS Values Adapter Spec.

(** *** Link headers *)

(* Both patterns of lines 33-34 match the trimmed entry. *)
Definition matches_both (e : string) : bool :=
  match exec_rel (trim e), exec_source (trim e) with
  | Some _, Some _ => true
  | _, _ => false
  end.

(* The URL of the last entry that carries the relation name [key]. *)
Fixpoint last_named (key : string) (entries : list entry) : option string :=
  match entries with
  | [] => None
  | e :: entries' =>
      match last_named key entries' with
      | Some url => Some url
      | None => if String.eqb (entry_rel e) key then Some (entry_url e) else None
      end
  end.

(** *** Replies *)

(* The error the request callback passes on for a reply (lines 66, 67
   and 75), if it does. *)
Definition failure_of (r : reply) : option jserror :=
  match r with
  | Failure err => Some err
  | Response statusCode _ body =>
      if negb (statusCode =? 200) then Some (Error "Invalid Response")
      else match body with
           | Throw e => Some e
           | Normal _ => None
           end
  end.

(* The parsed body of a reply that is a successful page. *)
Definition body_of (r : reply) : option value :=
  match r with
  | Response statusCode _ (Normal data) =>
      if statusCode =? 200 then Some data else None
  | _ => None
  end.

(* The next URL a successful page advertises, as lines 79-80 read it. *)
Definition next_page_of (r : reply) : option string :=
  match r with
  | Response statusCode link (Normal _) =>
      if statusCode =? 200
      then match next_of link with
           | Normal (Some next) => Some next
           | _ => None
           end
      else None
  | _ => None
  end.

(* The bodies of the successful pages among the replies, in order. *)
Definition bodies (replies : list reply) : list value :=
  omap body_of replies.

(* The callback in force after the pages with bodies [datas] were
   followed: one closure of lines 83-86 per page, the latest outermost. *)
Fixpoint wrap (cb : callback) (datas : list value) : callback :=
  match datas with
  | [] => cb
  | data :: datas' => wrap (PageCb data cb) datas'
  end.

(* The caller's value at the bottom of a callback. *)
Fixpoint root (cb : callback) : value :=
  match cb with
  | UserCb f => f
  | PageCb _ outer => root outer
  end.

(* What Array.prototype.concat appends for an argument. *)
Definition spread (v : value) : list value :=
  match v with
  | VArr l => l
  | _ => [v]
  end.

(** *** Templates *)

(* The number of segments that hold a marker. *)
Definition placeholders (parts : list string) : nat :=
  length (List.filter (includes ":") parts).

End Behaviour.

(** ** Facts about the string built-ins *)

Module StringFacts.
Import JS Values Spec.

#[local] Arguments String.append !_ _ / : simpl nomatch.

Lemma append_nil_r (s : string) : s +:+ EmptyString = s.
Proof. induction s as [|c s IH]; cbn; [reflexivity | f_equal; exact IH]. Qed.

Lemma append_assoc (a b c : string) : (a +:+ b) +:+ c = a +:+ (b +:+ c).
Proof. induction a as [|x a IH]; cbn; [reflexivity | f_equal; exact IH]. Qed.

Lemma all_chars_app (P : ascii → bool) (a b : string) :
  all_chars P (a +:+ b) = all_chars P a && all_chars P b.
Proof.
  induction a as [|x a IH]; simpl; [reflexivity|].
  rewrite IH. now rewrite andb_assoc.
Qed.

Lemma all_chars_impl (P Q : ascii → bool) (s : string) :
  (∀ c, P c = true → Q c = true) → all_chars P s = true → all_chars Q s = true.
Proof.
  intros HPQ. induction s as [|c s IH]; simpl; [reflexivity|].
  intros [Hc Hs]%andb_prop. rewrite (HPQ _ Hc). simpl. auto.
Qed.

(** *** split *)

Lemma split_not_nil (sep : ascii) (s : string) : split sep s ≠ [].
Proof.
  induction s as [|c s IH]; simpl; [discriminate|].
  destruct (Ascii.eqb c sep); [discriminate|].
  destruct (split sep s); discriminate.
Qed.

(* A string without the separator is a single entry. *)
Lemma split_none (sep : ascii) (s : string) :
  all_chars (fun c => negb (is_char sep c)) s = true → split sep s = [s].
Proof.
  induction s as [|c s IH]; simpl; [reflexivity|].
  unfold is_char at 1. intros [Hc Hs]%andb_prop.
  apply negb_true_iff in Hc. rewrite Hc, (IH Hs). reflexivity.
Qed.

(* The first separator ends the first entry. *)
Lemma split_app (sep : ascii) (a b : string) :
  all_chars (fun c => negb (is_char sep c)) a = true →
  split sep (a +:+ String sep b) = a :: split sep b.
Proof.
  induction a as [|c a IH]; simpl.
  - intros _. now rewrite Ascii.eqb_refl.
  - unfold is_char at 1. intros [Hc Ha]%andb_prop.
    apply negb_true_iff in Hc. rewrite Hc, (IH Ha). reflexivity.
Qed.

(** *** trim *)

Lemma trimEnd_keeps (s : string) (c : ascii) :
  is_white_space c = false →
  trimEnd (s +:+ String c EmptyString) = s +:+ String c EmptyString.
Proof.
  intros Hc. induction s as [|d s IH]; simpl.
  - now rewrite Hc.
  - rewrite IH. destruct s; reflexivity.
Qed.

Lemma trimStart_white (ws s : string) :
  all_chars is_white_space ws = true → trimStart (ws +:+ s) = trimStart s.
Proof.
  induction ws as [|c ws IH]; [reflexivity|]. cbn [all_chars].
  intros [Hc Hws]%andb_prop. cbn [String.append trimStart]. rewrite Hc. now apply IH.
Qed.

Lemma trimEnd_white (ws : string) :
  all_chars is_white_space ws = true → trimEnd ws = EmptyString.
Proof.
  induction ws as [|c ws IH]; [reflexivity|]. cbn [all_chars].
  intros [Hc Hws]%andb_prop. cbn [trimEnd]. now rewrite (IH Hws), Hc.
Qed.

Lemma trimEnd_app_white (s ws : string) :
  all_chars is_white_space ws = true → trimEnd (s +:+ ws) = trimEnd s.
Proof.
  intros Hws. induction s as [|c s IH]; cbn [String.append trimEnd].
  - now apply trimEnd_white.
  - now rewrite IH.
Qed.

(* Trimming white space around a text that starts and ends with a
   visible character leaves the text. *)
Lemma trim_padded (ws ws' s : string) (c d : ascii) :
  all_chars is_white_space ws = true → all_chars is_white_space ws' = true →
  is_white_space c = false → is_white_space d = false →
  trim (ws +:+ String c (s +:+ String d EmptyString) +:+ ws')
  = String c (s +:+ String d EmptyString).
Proof.
  intros Hws Hws' Hc Hd. unfold trim. rewrite (trimStart_white _ _ Hws).
  cbn [String.append trimStart]. rewrite Hc.
  change (String c ((s +:+ String d EmptyString) +:+ ws'))
    with (String c (s +:+ String d EmptyString) +:+ ws').
  rewrite (trimEnd_app_white _ _ Hws').
  change (String c (s +:+ String d EmptyString))
    with ((String c s) +:+ String d EmptyString).
  now apply trimEnd_keeps.
Qed.

(** *** The greedy group *)

Lemma greedy_until_absent (close : ascii) (s : string) :
  all_chars (fun c => negb (is_char close c)) s = true →
  greedy_until close s = None.
Proof.
  induction s as [|c s IH]; simpl; [reflexivity|].
  unfold is_char at 1. intros [Hc Hs]%andb_prop.
  apply negb_true_iff in Hc. rewrite (IH Hs), Hc.
  now destruct (is_line_terminator c).
Qed.

(* The capture runs to the last [close] of the line. *)
Lemma greedy_until_last (close : ascii) (s tail : string) :
  is_line_terminator close = false →
  all_chars (fun c => negb (is_line_terminator c)) s = true →
  all_chars (fun c => negb (is_char close c)) tail = true →
  greedy_until close (s +:+ String close tail) = Some s.
Proof.
  intros Hclose Hs Htail. induction s as [|c s IH]; simpl.
  - rewrite Hclose, (greedy_until_absent _ _ Htail), Ascii.eqb_refl. reflexivity.
  - simpl in Hs. apply andb_prop in Hs as [Hc Hs].
    apply negb_true_iff in Hc. rewrite Hc, (IH Hs). reflexivity.
Qed.

(** *** includes *)

Lemma prefix_app (pat s : string) : String.prefix pat (pat +:+ s) = true.
Proof.
  induction pat as [|c pat IH]; simpl; [now destruct s|].
  destruct (ascii_dec c c); [assumption | congruence].
Qed.

Lemma prefix_inv (pat s : string) :
  String.prefix pat s = true → ∃ rest, s = pat +:+ rest.
Proof.
  revert s. induction pat as [|c pat IH]; intros s; simpl.
  - intros _. now exists s.
  - destruct s as [|d s]; simpl; [discriminate|].
    destruct (ascii_dec c d) as [->|]; [|discriminate].
    intros [rest ->]%IH. now exists rest.
Qed.

(* [includes] is the substring test. *)
Lemma includes_spec (pat s : string) :
  includes pat s = true ↔ ∃ before after, s = before +:+ pat +:+ after.
Proof.
  split.
  - induction s as [|c s IH]; cbn [includes].
    + rewrite orb_false_r. intros [rest ->]%prefix_inv. now exists EmptyString, rest.
    + intros [H|H]%orb_prop.
      * apply prefix_inv in H as [rest ->]. now exists EmptyString, rest.
      * destruct (IH H) as (b & a & ->). now exists (String c b), a.
  - intros (b & a & ->). induction b as [|c b IH].
    + change (EmptyString +:+ pat +:+ a) with (pat +:+ a).
      destruct (pat +:+ a) eqn:E; cbn [includes]; rewrite <- E, prefix_app; reflexivity.
    + change (String c b +:+ pat +:+ a) with (String c (b +:+ pat +:+ a)).
      cbn [includes]. rewrite IH. apply orb_true_r.
Qed.

End StringFacts.

(** ** Facts about parseLinks *)

Module ParseLinksFacts.
Import JS Values Adapter Spec StringFacts.

#[local] Arguments String.append !_ _ / : simpl nomatch.
#[local] Arguments Ascii.eqb : simpl never.

Lemma drop_prefix_app (pat s : string) : drop_prefix pat (pat +:+ s) = Some s.
Proof.
  induction pat as [|c pat IH]; simpl; [reflexivity|].
  rewrite Ascii.eqb_refl. exact IH.
Qed.

Lemma rel_open_chars :
  rel_open = String "r" (String "e" (String "l" (String "=" (String dquote EmptyString)))).
Proof. reflexivity. Qed.

(* The pattern of line 33 cannot match at a position from which a quote
   is more than four characters away. *)
Lemma drop_rel_open_none (c : ascii) (pre rest : string) :
  all_chars (fun d => negb (is_char dquote d)) (String c pre) = true →
  drop_prefix rel_open (String c pre +:+ rel_open +:+ rest) = None.
Proof.
  rewrite rel_open_chars. intros H.
  destruct pre as [|c2 [|c3 [|c4 [|c5 pre]]]]; simpl in H; simpl;
    repeat match goal with
           | |- context [Ascii.eqb ?a ?b] =>
               destruct (Ascii.eqb_spec a b); subst; try reflexivity; try discriminate
           end.
Qed.

Lemma exec_rel_skip (pre rest : string) :
  all_chars (fun d => negb (is_char dquote d)) pre = true →
  exec_rel (pre +:+ rel_open +:+ rest) = exec_rel (rel_open +:+ rest).
Proof.
  induction pre as [|c pre IH]; [reflexivity|]. intros H.
  change (exec_rel (String c pre +:+ rel_open +:+ rest))
    with (match match_here rel_open dquote (String c pre +:+ rel_open +:+ rest) with
          | Some k => Some k
          | None => exec_rel (pre +:+ rel_open +:+ rest)
          end).
  unfold match_here. rewrite (drop_rel_open_none _ _ _ H).
  apply IH. simpl in H. now apply andb_prop in H as [_ H].
Qed.

Lemma exec_rel_here (rel : string) :
  all_chars (fun c => negb (is_line_terminator c)) rel = true →
  exec_rel (rel_open +:+ rel +:+ String dquote EmptyString) = Some rel.
Proof.
  intros H.
  assert (Hm : match_here rel_open dquote (rel_open +:+ rel +:+ String dquote EmptyString)
               = Some rel).
  { unfold match_here. rewrite drop_prefix_app.
    now apply greedy_until_last. }
  destruct (rel_open +:+ rel +:+ String dquote EmptyString) eqn:E;
    cbn [exec_rel]; now rewrite Hm.
Qed.

Lemma url_ok_no_quote (url : string) :
  url_ok url = true → all_chars (fun d => negb (is_char dquote d)) url = true.
Proof.
  apply all_chars_impl. intros c H.
  now apply andb_prop in H as [[_ H]%andb_prop _].
Qed.

Lemma url_ok_one_line (url : string) :
  url_ok url = true → all_chars (fun c => negb (is_line_terminator c)) url = true.
Proof. apply all_chars_impl. intros c H. now apply andb_prop in H as [_ H]. Qed.

Lemma url_ok_no_comma (url : string) :
  url_ok url = true → all_chars (fun d => negb (is_char ","%char d)) url = true.
Proof.
  apply all_chars_impl. intros c H.
  now apply andb_prop in H as [[H _]%andb_prop _].
Qed.

Lemma rel_ok_no_bracket (rel : string) :
  rel_ok rel = true → all_chars (fun d => negb (is_char ">"%char d)) rel = true.
Proof.
  apply all_chars_impl. intros c H.
  now apply andb_prop in H as [[_ H]%andb_prop _].
Qed.

Lemma rel_ok_one_line (rel : string) :
  rel_ok rel = true → all_chars (fun c => negb (is_line_terminator c)) rel = true.
Proof. apply all_chars_impl. intros c H. now apply andb_prop in H as [_ H]. Qed.

Lemma rel_ok_no_comma (rel : string) :
  rel_ok rel = true → all_chars (fun d => negb (is_char ","%char d)) rel = true.
Proof.
  apply all_chars_impl. intros c H.
  now apply andb_prop in H as [[H _]%andb_prop _].
Qed.

Lemma well_formed_parts (e : entry) :
  well_formed e = true →
  all_chars is_white_space (pad_before e) = true ∧ url_ok (entry_url e) = true ∧
  rel_ok (entry_rel e) = true ∧ all_chars is_white_space (pad_after e) = true.
Proof.
  unfold well_formed. intros [[[H1 H2]%andb_prop H3]%andb_prop H4]%andb_prop.
  auto.
Qed.

(* The two patterns on the text of a well-formed entry. *)
Lemma exec_rel_entry (e : entry) :
  well_formed e = true → exec_rel (entry_text e) = Some (entry_rel e).
Proof.
  intros (_ & Hu & Hr & _)%well_formed_parts. unfold entry_text.
  replace ("<" +:+ entry_url e +:+ ">; " +:+ rel_open +:+ entry_rel e
           +:+ String dquote EmptyString)
    with (("<" +:+ entry_url e +:+ ">; ") +:+ rel_open +:+ entry_rel e
          +:+ String dquote EmptyString)
    by now rewrite !append_assoc.
  rewrite exec_rel_skip.
  - apply exec_rel_here. now apply rel_ok_one_line.
  - change ("<" +:+ entry_url e +:+ ">; ") with (String "<" (entry_url e +:+ ">; ")).
    cbn [all_chars]. rewrite all_chars_app, (url_ok_no_quote _ Hu). reflexivity.
Qed.

Lemma exec_source_entry (e : entry) :
  well_formed e = true → exec_source (entry_text e) = Some (entry_url e).
Proof.
  intros (_ & Hu & Hr & _)%well_formed_parts. unfold entry_text.
  unfold exec_source, match_here. rewrite drop_prefix_app.
  change (">; " +:+ rel_open +:+ entry_rel e +:+ String dquote EmptyString)
    with (String ">" ("; " +:+ rel_open +:+ entry_rel e +:+ String dquote EmptyString)).
  apply greedy_until_last; [reflexivity | now apply url_ok_one_line |].
  rewrite rel_open_chars.
  change ("; " +:+ String "r" (String "e" (String "l" (String "=" (String dquote EmptyString))))
          +:+ entry_rel e +:+ String dquote EmptyString)
    with (String ";" (String " " (String "r" (String "e" (String "l" (String "="
           (String dquote (entry_rel e +:+ String dquote EmptyString)))))))).
  cbn [all_chars]. rewrite all_chars_app, (rel_ok_no_bracket _ Hr). reflexivity.
Qed.

End ParseLinksFacts.

(** ** parseLinks on a header of well-formed entries *)

Module LinkHeaderFacts.
Import JS Values Adapter Spec StringFacts ParseLinksFacts.

#[local] Arguments String.append !_ _ / : simpl nomatch.
#[local] Arguments Ascii.eqb : simpl never.

Lemma entry_text_shape (e : entry) :
  entry_text e
  = String "<" ((entry_url e +:+ ">; " +:+ rel_open +:+ entry_rel e)
                +:+ String dquote EmptyString).
Proof. unfold entry_text. cbn [String.append]. now rewrite !append_assoc. Qed.

Lemma white_space_no_comma (ws : string) :
  all_chars is_white_space ws = true →
  all_chars (fun c => negb (is_char ","%char c)) ws = true.
Proof.
  apply all_chars_impl. intros c Hc. unfold is_char.
  destruct (Ascii.eqb_spec c ","%char) as [->|]; [discriminate | reflexivity].
Qed.

Lemma render_entry_no_comma (e : entry) :
  well_formed e = true →
  all_chars (fun c => negb (is_char ","%char c)) (render_entry e) = true.
Proof.
  intros (Hb & Hu & Hr & Ha)%well_formed_parts. unfold render_entry, entry_text.
  rewrite rel_open_chars.
  rewrite !all_chars_app, (url_ok_no_comma _ Hu), (rel_ok_no_comma _ Hr),
    (white_space_no_comma _ Hb), (white_space_no_comma _ Ha).
  reflexivity.
Qed.

Lemma trim_entry (e : entry) :
  well_formed e = true → trim (render_entry e) = entry_text e.
Proof.
  intros (Hb & _ & _ & Ha)%well_formed_parts.
  unfold render_entry. rewrite entry_text_shape. now apply trim_padded.
Qed.

(* split finds the entries as they were written. *)
Lemma split_render_header (e : entry) (es : list entry) :
  forallb well_formed (e :: es) = true →
  split ","%char (render_header (e :: es)) = List.map render_entry (e :: es).
Proof.
  revert e. induction es as [|e' es IH]; intros e Hwf.
  - simpl in Hwf. rewrite andb_true_r in Hwf.
    unfold render_header. cbn [List.map join].
    now rewrite split_none by now apply render_entry_no_comma.
  - cbn [forallb] in Hwf. apply andb_prop in Hwf as [He Hes].
    unfold render_header in *. cbn [List.map] in *.
    change (join "," (render_entry e :: render_entry e' :: List.map render_entry es))
      with (render_entry e
            +:+ String "," (join "," (render_entry e' :: List.map render_entry es))).
    rewrite split_app by now apply render_entry_no_comma.
    now rewrite (IH e' Hes).
Qed.

(* The loop records the entries in order. *)
Lemma parseLinks_loop_entries (entries : list entry) (links : gmap string string) :
  forallb well_formed entries = true →
  parseLinks_loop (List.map render_entry entries) links
  = Normal (foldl record links entries).
Proof.
  revert links. induction entries as [|e entries IH]; intros links Hwf; [reflexivity|].
  cbn [forallb] in Hwf. apply andb_prop in Hwf as [He Hes].
  cbn [List.map parseLinks_loop foldl]. rewrite (trim_entry _ He).
  rewrite (exec_rel_entry _ He), (exec_source_entry _ He). now apply IH.
Qed.

Lemma parseLinks_render_header (e : entry) (es : list entry) :
  forallb well_formed (e :: es) = true →
  parseLinks (render_header (e :: es)) = Normal (foldl record ∅ (e :: es)).
Proof.
  intros Hwf. unfold parseLinks. rewrite (split_render_header _ _ Hwf).
  now apply parseLinks_loop_entries.
Qed.

(** *** The object built by the loop *)

Lemma record_other (entries : list entry) (links : gmap string string) (key : string) :
  key ∉ List.map entry_rel entries →
  foldl record links entries !! key = links !! key.
Proof.
  revert links. induction entries as [|e entries IH]; intros links Hk; [reflexivity|].
  cbn [foldl]. rewrite IH by (intros ?; apply Hk; now right).
  unfold record, set_property.
  case_decide; [reflexivity|].
  apply lookup_insert_ne. intros E. apply Hk. rewrite <- E. now left.
Qed.

Lemma record_lookup (entries : list entry) (links : gmap string string) (e : entry) :
  NoDup (List.map entry_rel entries) →
  entry_rel e ≠ "__proto__" →
  e ∈ entries →
  foldl record links entries !! entry_rel e = Some (entry_url e).
Proof.
  revert links. induction entries as [|e' entries IH]; intros links Hnd Hp Hin.
  - now apply elem_of_nil in Hin.
  - cbn [List.map] in Hnd. apply NoDup_cons in Hnd as [Hr Hnd].
    cbn [foldl]. apply elem_of_cons in Hin as [->|Hin].
    + rewrite record_other by exact Hr.
      unfold record, set_property.
      case_decide; [congruence|]. apply lookup_insert_eq.
    + now apply IH.
Qed.

Lemma record_size (entries : list entry) (links : gmap string string) :
  NoDup (List.map entry_rel entries) →
  "__proto__" ∉ List.map entry_rel entries →
  (∀ rel, rel ∈ List.map entry_rel entries → links !! rel = None) →
  size (foldl record links entries) = (size links + length entries)%nat.
Proof.
  revert links. induction entries as [|e entries IH]; intros links Hnd Hp Hfresh.
  - cbn. lia.
  - cbn [List.map] in Hnd, Hp, Hfresh.
    apply NoDup_cons in Hnd as [Hr Hnd].
    apply not_elem_of_cons in Hp as [Hpr Hp].
    cbn [foldl length]. rewrite IH; [|exact Hnd|exact Hp|].
    + unfold record, set_property.
      case_decide; [congruence|].
      rewrite map_size_insert_None by (apply Hfresh; now left). lia.
    + intros rel Hrel. unfold record, set_property.
      case_decide; [congruence|].
      rewrite lookup_insert_ne by (intros E; apply Hr; now rewrite E).
      apply Hfresh. now right.
Qed.

(** *** Headers the parser rejects *)

(* An entry that one of the two patterns does not match makes the loop
   throw, whatever the other entries are. *)
Lemma parseLinks_loop_malformed (entries : list string) (links : gmap string string) :
  Exists (fun e => exec_rel (trim e) = None ∨ exec_source (trim e) = None) entries →
  parseLinks_loop entries links = Throw TypeError.
Proof.
  intros H. revert links. induction H as [e entries [H|H]|e entries _ IH]; intros links;
    cbn [parseLinks_loop].
  - now rewrite H.
  - rewrite H. now destruct (exec_rel (trim e)).
  - destruct (exec_rel (trim e)); [|reflexivity].
    destruct (exec_source (trim e)); [apply IH | reflexivity].
Qed.

Lemma parseLinks_malformed (linksHeader : string) :
  Exists (fun e => exec_rel (trim e) = None ∨ exec_source (trim e) = None)
    (split ","%char linksHeader) →
  parseLinks linksHeader = Throw TypeError.
Proof. apply parseLinks_loop_malformed. Qed.

End LinkHeaderFacts.

(** ** Facts about getRequest *)

Module FetcherFacts.
Import JS Values Adapter Spec StringFacts.

Lemma bind_lift_normal {A B} (a : A) (k : A → M B) : bind (lift (Normal a)) k = k a.
Proof. unfold bind, lift. now destruct (k a). Qed.

Lemma bind_tell {B} (ev : event) (k : unit → M B) : bind (tell ev) k = after [ev] (k tt).
Proof. unfold bind, tell, after. now destruct (k tt). Qed.

Lemma after_after {A} (t t' : list event) (m : M A) :
  after t (after t' m) = after (t ++ t') m.
Proof. unfold after. simpl. now rewrite app_assoc. Qed.

(* The first thing getRequest does is issue its request. *)
Lemma getRequest_unfold (r : reply) (net : list reply) (method : string)
    (token : value) (cb : callback) (page : option Z) :
  getRequest (r :: net) method token cb page
  = after [Request (request_url method token page)]
      match r with
      | Failure err => call cb (Some err) VUndefined
      | Response statusCode link body =>
          if negb (statusCode =? 200)
          then call cb (Some (Error "Invalid Response")) VUndefined
          else
            match body with
            | Throw e => call cb (Some e) VUndefined
            | Normal data =>
                links <- lift (header_links link) ;;
                match links_next links with
                | Some next =>
                    getRequest net next VNull (PageCb data cb) (Some (page_or_1 page + 1))
                | None => call cb None data
                end
            end
      end.
Proof. cbn [getRequest]. now rewrite bind_tell. Qed.

Lemma getRequest_head (net : list reply) (method : string) (token : value)
    (cb : callback) (page : option Z) :
  head (trace (getRequest net method token cb page))
  = Some (Request (request_url method token page)).
Proof. destruct net; [reflexivity|]. now rewrite getRequest_unfold. Qed.

(* A target that contains the marker is requested as it is. *)
Lemma getRequest_verbatim (net : list reply) (method : string) (token : value)
    (cb : callback) (page : option Z) :
  has_protocol_marker method →
  head (trace (getRequest net method token cb page)) = Some (Request method).
Proof.
  intros H. apply includes_spec in H.
  rewrite getRequest_head. unfold request_url. now rewrite H.
Qed.

(* A page that advertises a next URL: the fetch goes on with that URL,
   no credential, the next page number, and the closure of lines 83-86. *)
Lemma getRequest_next (net : list reply) (method : string) (token : value)
    (cb : callback) (page : option Z) (link : option string) (data : value)
    (next : string) :
  next_of link = Normal (Some next) →
  getRequest (Response 200 link (Normal data) :: net) method token cb page
  = after [Request (request_url method token page)]
      (getRequest net next VNull (PageCb data cb) (Some (page_or_1 page + 1))).
Proof.
  intros H. rewrite getRequest_unfold. cbn [Z.eqb Pos.eqb negb].
  unfold next_of in H. destruct (header_links link) as [links|]; [|discriminate].
  injection H as H. now rewrite bind_lift_normal, H.
Qed.

(* A page that advertises none: the fetch completes with its body. *)
Lemma getRequest_last (net : list reply) (method : string) (token : value)
    (cb : callback) (page : option Z) (link : option string) (data : value) :
  next_of link = Normal None →
  getRequest (Response 200 link (Normal data) :: net) method token cb page
  = after [Request (request_url method token page)] (call cb None data).
Proof.
  intros H. rewrite getRequest_unfold. cbn [Z.eqb Pos.eqb negb].
  unfold next_of in H. destruct (header_links link) as [links|]; [|discriminate].
  injection H as H. now rewrite bind_lift_normal, H.
Qed.

(* A link header the parser rejects: the exception leaves the request
   callback, past the caller's callback. *)
Lemma getRequest_malformed (net : list reply) (method : string) (token : value)
    (cb : callback) (page : option Z) (link : option string) (data : value)
    (e : jserror) :
  next_of link = Throw e →
  getRequest (Response 200 link (Normal data) :: net) method token cb page
  = ([Request (request_url method token page)], Throw e).
Proof.
  intros H. rewrite getRequest_unfold. cbn [Z.eqb Pos.eqb negb].
  unfold next_of in H. destruct (header_links link) as [links|e']; [discriminate|].
  injection H as ->. reflexivity.
Qed.

(* The closure of lines 83-86 on success, over arrays. *)
Lemma call_page_ok (elements rest : list value) (cb : callback) :
  call (PageCb (VArr elements) cb) None (VArr rest)
  = call cb None (VArr (elements ++ rest)).
Proof. cbn [call concat]. apply bind_lift_normal. Qed.

(* The closure of lines 83-86 on an error. *)
Lemma call_page_error (data next : value) (cb : callback) (err : jserror) :
  call (PageCb data cb) (Some err) next = ([], Throw (ReferenceError "e")).
Proof. reflexivity. Qed.

Lemma page_or_1_succ (p : Z) : 0 < p → page_or_1 (Some (p + 1)) = p + 1.
Proof.
  intros Hp. unfold page_or_1. destruct (Z.eqb_spec (p + 1) 0); [lia | reflexivity].
Qed.

(* The page number only matters through [page || 1]. *)
Lemma request_url_page (method : string) (token : value) (page page' : option Z) :
  page_or_1 page = page_or_1 page' →
  request_url method token page = request_url method token page'.
Proof. intros H. unfold request_url. now rewrite H. Qed.

Lemma getRequest_page (net : list reply) (method : string) (token : value)
    (cb : callback) (page page' : option Z) :
  page_or_1 page = page_or_1 page' →
  getRequest net method token cb page = getRequest net method token cb page'.
Proof.
  intros H. destruct net as [|r net].
  - cbn [getRequest]. now rewrite (request_url_page _ _ _ _ H).
  - rewrite !getRequest_unfold. now rewrite H, (request_url_page _ _ _ _ H).
Qed.

(* A failure reported for the page the caller asked for reaches the
   caller's callback (lines 66-67). *)
Lemma getRequest_first_page_error (net : list reply) (method : string)
    (token : value) (f : string) (page : option Z) (err : jserror) :
  getRequest (Failure err :: net) method token (UserCb (VFun f)) page
  = ([Request (request_url method token page); Callback f (Some err) VUndefined],
     Normal tt).
Proof. now rewrite getRequest_unfold. Qed.

Lemma getRequest_first_page_status (net : list reply) (method : string)
    (token : value) (f : string) (page : option Z) (statusCode : Z)
    (link : option string) (body : completion value) :
  statusCode ≠ 200 →
  getRequest (Response statusCode link body :: net) method token (UserCb (VFun f)) page
  = ([Request (request_url method token page);
      Callback f (Some (Error "Invalid Response")) VUndefined],
     Normal tt).
Proof.
  intros H. rewrite getRequest_unfold.
  destruct (Z.eqb_spec statusCode 200); [contradiction | reflexivity].
Qed.

(* Next URLs that are full URLs are requested as they are. *)
Lemma next_requests_verbatim (page : Z) (nexts : list string) :
  Forall has_protocol_marker nexts →
  next_requests page nexts = List.map Request nexts.
Proof.
  intros H. revert page. induction H as [|next nexts Hn _ IH]; intros page; [reflexivity|].
  cbn [next_requests List.map]. rewrite IH. f_equal. f_equal.
  unfold request_url. apply includes_spec in Hn. now rewrite Hn.
Qed.

(* A chain of pages, each advertising the next, up to a page that
   advertises none: the requests follow the next URLs and the callback
   receives the elements in page order. *)
Lemma getRequest_chain (pages : list page) (nexts : list string) (last : page)
    (rest : list reply) (method : string) (token : value) (cb : callback)
    (page : option Z) :
  0 < page_or_1 page →
  Forall2 (fun pg next => next_of (page_link pg) = Normal (Some next)) pages nexts →
  next_of (page_link last) = Normal None →
  getRequest (List.map reply_of pages ++ reply_of last :: rest) method token cb page
  = after (Request (request_url method token page)
           :: next_requests (page_or_1 page) nexts)
      (call cb None
         (VArr (List.concat (List.map page_elements pages) ++ page_elements last))).
Proof.
  intros Hp Hchain Hlast. revert method token cb page Hp.
  induction Hchain as [|pg next pages nexts Hnext _ IH]; intros method token cb page Hp.
  - cbn [List.map app List.concat next_requests]. unfold reply_of at 1.
    now apply getRequest_last.
  - cbn [List.map app List.concat next_requests]. unfold reply_of at 1.
    rewrite (getRequest_next _ _ _ _ _ _ _ _ Hnext).
    rewrite IH by (rewrite page_or_1_succ; lia).
    rewrite call_page_ok, after_after, page_or_1_succ by exact Hp.
    now rewrite <- app_assoc.
Qed.

End FetcherFacts.

(** ** Facts about route *)

Module RouteFacts.
Import JS Values Adapter Spec StringFacts FetcherFacts.

Lemma pop_snoc (a : list value) (x : value) : pop (a ++ [x]) = (x, a).
Proof. unfold pop. rewrite rev_app_distr. cbn. now rewrite rev_involutive. Qed.

Lemma Array_apply_elements (x y : value) (a : list value) :
  Array_apply (x :: y :: a) = Normal (x :: y :: a).
Proof. now destruct x. Qed.

(* A full invocation taken apart. *)
Lemma invocation_full (model accessToken cb : value) (positional : list value) :
  invocation (model :: positional ++ [accessToken; cb])
  = Normal (model, positional, accessToken, cb).
Proof.
  unfold invocation.
  replace (model :: positional ++ [accessToken; cb])
    with (model :: (positional ++ [accessToken]) ++ [cb])
    by now rewrite <- app_assoc.
  destruct (positional ++ [accessToken]) as [|y l] eqn:E.
  - now destruct positional.
  - cbn [app]. rewrite Array_apply_elements. cbn [shift].
    change (y :: l ++ [cb]) with ((y :: l) ++ [cb]).
    rewrite <- E, !pop_snoc. reflexivity.
Qed.

(* route, in terms of the invocation. *)
Lemma route_invocation (paths : list string) (arguments : list value)
    (net : list reply) (model accessToken cb : value) (positional : list value) :
  invocation arguments = Normal (model, positional, accessToken, cb) →
  route paths arguments net
  = if match model with VUndefined => true | _ => false end
       || negb (truthy cb) || negb (truthy accessToken)
    then if truthy cb
         then call_value cb (Some invalid_invocation_error) VUndefined
         else ret tt
    else route_loop paths paths positional accessToken cb net.
Proof.
  unfold invocation, route. destruct (Array_apply arguments) as [args|]; [|discriminate].
  rewrite bind_lift_normal.
  destruct (shift args) as [m a1]. destruct (pop a1) as [c a2].
  destruct (pop a2) as [t a3]. now intros [= -> -> -> ->].
Qed.

(* When the argument array cannot be built nothing else happens. *)
Lemma route_no_array (paths : list string) (arguments : list value)
    (net : list reply) (e : jserror) :
  invocation arguments = Throw e → route paths arguments net = ([], Throw e).
Proof.
  unfold invocation, route. destruct (Array_apply arguments) as [args|e'].
  - destruct (shift args) as [m a1]. destruct (pop a1) as [c a2].
    destruct (pop a2) as [t a3]. discriminate.
  - now intros [= ->].
Qed.

Lemma ToString_paths (paths : list string) :
  ToString (VArr (List.map VStr paths)) = join "," paths.
Proof.
  cbn [ToString]. f_equal. induction paths as [|p paths IH]; [reflexivity|].
  cbn [List.map]. now rewrite IH.
Qed.

(* The loop stops at the first path whose marker count fits. *)
Lemma route_loop_select (paths rest : list string) (args : list value)
    (accessToken cb : value) (net : list reply) :
  route_loop paths rest args accessToken cb net
  = match select rest args with
    | Some path => getRequest net (build_method path args) accessToken (UserCb cb) None
    | None => call_value cb (Some (no_template_error paths)) VUndefined
    end.
Proof.
  induction rest as [|path rest IH].
  - cbn [route_loop select find]. unfold no_template_error.
    now rewrite ToString_paths.
  - cbn [route_loop]. unfold select in *. cbn [find].
    destruct (Nat.eqb (numVars path) (length args)); [reflexivity | exact IH].
Qed.

(* The stateful map of lines 122-127 fills the template. *)
Lemma map_parts_fill (parts : list string) (args : list value) :
  List.map segment_text (fst (map_parts parts args))
  = fill (List.map segment_of parts) args.
Proof.
  revert args. induction parts as [|part parts IH]; intros args; [reflexivity|].
  cbn [map_parts List.map]. unfold segment_of at 1.
  destruct (includes ":" part).
  - destruct args as [|a args]; cbn [shift].
    + specialize (IH []). destruct (map_parts parts []) as [r a'].
      cbn [fst List.map fill] in *. now rewrite IH.
    + specialize (IH args). destruct (map_parts parts args) as [r a'].
      cbn [fst List.map fill] in *. now rewrite IH.
  - specialize (IH args). destruct (map_parts parts args) as [r a'].
    cbn [fst List.map fill segment_text ToString] in *. now rewrite IH.
Qed.

Lemma build_method_fill (path : string) (args : list value) :
  build_method path args = join "/" (fill (template_of path) args).
Proof.
  unfold build_method, Array_join, template_of.
  rewrite <- map_parts_fill. reflexivity.
Qed.

Lemma select_none (paths : list string) (args : list value) :
  (∀ path, path ∈ paths → numVars path ≠ length args) → select paths args = None.
Proof.
  intros H. unfold select. induction paths as [|p paths IH]; [reflexivity|].
  cbn [find]. destruct (Nat.eqb_spec (numVars p) (length args)) as [E|_].
  - exfalso. apply (H p); [now left | exact E].
  - apply IH. intros q Hq. apply H. now right.
Qed.

(* Among the paths, one whose marker count fits is found, and it is the
   first. *)
Lemma select_first (paths : list string) (args : list value) :
  (∃ path, path ∈ paths ∧ numVars path = length args) →
  ∃ before path after,
    paths = before ++ path :: after ∧
    Forall (fun p => numVars p ≠ length args) before ∧
    numVars path = length args ∧
    select paths args = Some path.
Proof.
  unfold select. induction paths as [|p paths IH]; intros (q & Hq & Hn).
  - now apply elem_of_nil in Hq.
  - cbn [find]. destruct (Nat.eqb_spec (numVars p) (length args)) as [E|E].
    + exists [], p, paths. repeat split; [constructor | exact E].
    + destruct IH as (before & path & after & -> & Hb & Hp & Hs).
      { apply elem_of_cons in Hq as [->|Hq]; [contradiction|]. now exists q. }
      exists (p :: before), path, after.
      repeat split; [now constructor | exact Hp | exact Hs].
Qed.

Lemma shift_holes (k : nat) :
  shift (repeat VUndefined k) = (VUndefined, repeat VUndefined (k - 1)).
Proof.
  destruct k as [|k]; [reflexivity|].
  cbn [repeat shift]. now replace (S k - 1)%nat with k by lia.
Qed.

Lemma pop_holes (k : nat) :
  pop (repeat VUndefined k) = (VUndefined, repeat VUndefined (k - 1)).
Proof.
  destruct k as [|k]; [reflexivity|].
  cbn [repeat]. rewrite (repeat_cons k VUndefined), pop_snoc.
  now replace (S k - 1)%nat with k by lia.
Qed.

(* A single numeric argument: an array of holes, or no array at all when
   the number is no array length. *)
Lemma invocation_single_number (n : Z) :
  invocation [VNum n]
  = if (0 <=? n) && (n <? 2 ^ 32)
    then Normal (VUndefined, repeat VUndefined (Z.to_nat n - 3), VUndefined, VUndefined)
    else Throw RangeError.
Proof.
  unfold invocation, Array_apply.
  destruct ((0 <=? n) && (n <? 2 ^ 32)); [|reflexivity].
  rewrite shift_holes, !pop_holes.
  now replace (Z.to_nat n - 1 - 1 - 1)%nat with (Z.to_nat n - 3)%nat by lia.
Qed.

End RouteFacts.

(** ** Properties of the link-header parser *)

Module LinkHeaderParser.
Import JS Values Adapter Spec StringFacts ParseLinksFacts LinkHeaderFacts.

(** C4, as stated, fails: two well-formed entries that carry the same
    relation name are parsed into an object with a single key, not two,
    the later entry overwriting the earlier one; a well-formed entry
    whose relation name is __proto__ leaves no key at all; and a header
    of no entries is not parsed, the parser throws. *)
Lemma parseLinks_fewer_keys_than_entries :
  let twice := spaced [("https://api.github.com/user/repos?page=2", "next");
                       ("https://api.github.com/user/repos?page=3", "next")] in
  let proto := spaced [("https://api.github.com/user/repos?page=2", "__proto__")] in
  (forallb well_formed twice = true ∧
   ¬ ∃ links : gmap string string,
       parseLinks (render_header twice) = Normal links ∧ size links = length twice) ∧
  (forallb well_formed proto = true ∧
   ¬ ∃ links : gmap string string,
       parseLinks (render_header proto) = Normal links ∧ size links = length proto) ∧
  ¬ ∃ links : gmap string string, parseLinks (render_header []) = Normal links.
Proof.
  cbn zeta. unfold spaced. cbn [List.map fst snd]. split; [|split].
  - split; [reflexivity|]. intros (links & Hparse & Hsize).
    rewrite parseLinks_render_header in Hparse by reflexivity.
    injection Hparse as <-. vm_compute in Hsize. discriminate.
  - split; [reflexivity|]. intros (links & Hparse & Hsize).
    rewrite parseLinks_render_header in Hparse by reflexivity.
    injection Hparse as <-. vm_compute in Hsize. discriminate.
  - intros (links & Hparse). vm_compute in Hparse. discriminate.
Qed.

(** C4, amended: for every link header of N >= 1 comma-separated
    well-formed entries (an angle-bracketed URL, a semicolon and the
    quoted relation name, with any white space around the entry; the URL
    free of commas, quotes and line breaks, the name free of commas,
    closing brackets and line breaks) whose relation names are pairwise
    distinct and none of which is __proto__, parseLinks returns an object
    with exactly N keys in which each entry's relation name maps to that
    entry's URL. *)
Theorem parseLinks_distinct_rels (entries : list entry) :
  entries ≠ [] →
  forallb well_formed entries = true →
  NoDup (List.map entry_rel entries) →
  "__proto__" ∉ List.map entry_rel entries →
  ∃ links : gmap string string,
    parseLinks (render_header entries) = Normal links ∧
    size links = length entries ∧
    ∀ e, e ∈ entries → links !! entry_rel e = Some (entry_url e).
Proof.
  intros Hne Hwf Hnd Hproto. destruct entries as [|e es]; [congruence|].
  exists (foldl record ∅ (e :: es)). split; [|split].
  - now apply parseLinks_render_header.
  - rewrite record_size by (try assumption; intros; apply lookup_empty).
    now rewrite map_size_empty.
  - intros e' Hin. apply record_lookup; [exact Hnd | | exact Hin].
    intros E. apply Hproto. rewrite <- E.
    apply list_elem_of_fmap. now exists e'.
Qed.

Lemma parseLinks_distinct_rels_witness :
  ∃ links : gmap string string,
    parseLinks example_header = Normal links ∧
    size links = 2%nat ∧
    ∀ e,
      e ∈ spaced [(example_next, "next");
                  ("https://api.github.com/user/repos?page=50&per_page=100", "last")] →
      links !! entry_rel e = Some (entry_url e).
Proof.
  apply (parseLinks_distinct_rels
           (spaced [(example_next, "next");
                    ("https://api.github.com/user/repos?page=50&per_page=100", "last")])).
  - discriminate.
  - reflexivity.
  - apply NoDup_cons. split.
    + intros [H|H]%elem_of_cons; [discriminate | now apply elem_of_nil in H].
    + apply NoDup_cons. split; [apply not_elem_of_nil | apply NoDup_nil_2].
  - intros [H|[H|H]%elem_of_cons]%elem_of_cons;
      [discriminate | discriminate | now apply elem_of_nil in H].
Defined.

(** C7, as stated, fails: on the empty header the parser finds one
    empty entry, which matches neither pattern, and throws; it does not
    yield an empty link set. *)
Lemma parseLinks_empty_header_throws :
  parseLinks EmptyString = Throw TypeError ∧ parseLinks EmptyString ≠ Normal ∅.
Proof. split; [reflexivity | discriminate]. Qed.

End LinkHeaderParser.

(** ** Properties of the paginating fetcher *)

Module PaginatingFetcher.
Import JS Values Adapter Spec StringFacts FetcherFacts.

Lemma example_header_next : next_of (Some example_header) = Normal (Some example_next).
Proof. vm_compute. reflexivity. Qed.

(** C1 (the code departs from it): when the first page advertises a next
    page and the fetch of that page fails, by a transport error or by a
    status other than 200, the closure of lines 83-86 evaluates the
    unbound identifier of line 84: the run ends in a ReferenceError after
    the two requests, and the caller's callback is never called. *)
Theorem error_on_later_page_never_reaches_callback (method : string) (token : value)
    (f : string) (page : option Z) (data : value) (err : jserror)
    (body : completion value) (link : option string) (net : list reply) :
  let first := Response 200 (Some example_header) (Normal data) in
  let lost := ([Request (request_url method token page); Request example_next],
               Throw (ReferenceError "e")) in
  getRequest (first :: Failure err :: net) method token (UserCb (VFun f)) page = lost ∧
  getRequest (first :: Response 500 link body :: net) method token (UserCb (VFun f)) page
  = lost ∧
  calls_of f (trace lost) = [].
Proof.
  cbn zeta. split; [|split; [|reflexivity]].
  - rewrite (getRequest_next _ _ _ _ _ _ _ _ example_header_next).
    rewrite getRequest_unfold, call_page_error. reflexivity.
  - rewrite (getRequest_next _ _ _ _ _ _ _ _ example_header_next).
    rewrite getRequest_unfold. cbn [Z.eqb Pos.eqb negb].
    rewrite call_page_error. reflexivity.
Qed.

(** C2: for every sequence of pages (status 200, bodies that parse to
    arrays) in which each page before the last advertises a next URL and
    the last advertises none, the caller's callback is called once, with
    no error and the array of the pages' elements in page order; the
    requests after the first are made for the advertised next URLs, each
    with no credential and the page number increased by one. *)
Theorem pages_concatenated_in_order (pages : list page) (nexts : list string)
    (last : page) (rest : list reply) (method : string) (token : value)
    (f : string) (page : option Z) :
  0 < page_or_1 page →
  Forall2 (fun pg next => next_of (page_link pg) = Normal (Some next)) pages nexts →
  next_of (page_link last) = Normal None →
  getRequest (List.map reply_of pages ++ reply_of last :: rest)
    method token (UserCb (VFun f)) page
  = (Request (request_url method token page)
     :: next_requests (page_or_1 page) nexts
     ++ [Callback f None
           (VArr (List.concat (List.map page_elements pages) ++ page_elements last))],
     Normal tt).
Proof.
  intros Hp Hchain Hlast.
  rewrite (getRequest_chain _ _ _ _ _ _ _ _ Hp Hchain Hlast). reflexivity.
Qed.

Lemma pages_concatenated_in_order_witness :
  let page2 := "https://api.github.com/user/repos?page=2" in
  let page3 := "https://api.github.com/user/repos?page=3" in
  getRequest
    [reply_of (Page (Some (render_header (spaced [(page2, "next"); (page3, "last")])))
                 [VStr "a"; VStr "b"]);
     reply_of (Page (Some (render_header (spaced [(page3, "next"); (page2, "prev")])))
                 [VStr "c"]);
     reply_of (Page (Some (render_header (spaced [(page2, "prev")])))
                 [VStr "d"; VStr "e"])]
    "user/repos" (VStr "token") (UserCb (VFun "done")) None
  = ([Request "https://api.github.com/user/repos?access_token=token&per_page=100&page=1";
      Request page2;
      Request page3;
      Callback "done" None (VArr [VStr "a"; VStr "b"; VStr "c"; VStr "d"; VStr "e"])],
     Normal tt).
Proof.
  cbn zeta.
  apply (pages_concatenated_in_order
           [Page (Some (render_header
                          (spaced [("https://api.github.com/user/repos?page=2", "next");
                                   ("https://api.github.com/user/repos?page=3", "last")])))
              [VStr "a"; VStr "b"];
            Page (Some (render_header
                          (spaced [("https://api.github.com/user/repos?page=3", "next");
                                   ("https://api.github.com/user/repos?page=2", "prev")])))
              [VStr "c"]]
           ["https://api.github.com/user/repos?page=2";
            "https://api.github.com/user/repos?page=3"]
           (Page (Some (render_header
                          (spaced [("https://api.github.com/user/repos?page=2", "prev")])))
              [VStr "d"; VStr "e"])
           [] "user/repos" (VStr "token") "done" None).
  - reflexivity.
  - repeat constructor.
  - vm_compute. reflexivity.
Defined.

(** C3 (the code departs from it): a link header with an entry that
    lacks the quotes around the relation name, or the angle brackets
    around the URL, makes parseLinks throw a TypeError; the exception is
    thrown inside the request callback, outside any handler, so the run
    ends with it after the one request and the caller's callback is
    never called. *)
Theorem malformed_link_header_never_reaches_callback (method : string) (token : value)
    (cb : callback) (page : option Z) (data : value) (net : list reply) :
  parseLinks unquoted_header = Throw TypeError ∧
  parseLinks unbracketed_header = Throw TypeError ∧
  getRequest (Response 200 (Some unquoted_header) (Normal data) :: net)
    method token cb page
  = ([Request (request_url method token page)], Throw TypeError) ∧
  getRequest (Response 200 (Some unbracketed_header) (Normal data) :: net)
    method token cb page
  = ([Request (request_url method token page)], Throw TypeError).
Proof.
  repeat split; try (vm_compute; reflexivity);
    apply getRequest_malformed; vm_compute; reflexivity.
Qed.

(** C5: if the target contains the protocol marker the request is made
    for the target verbatim; otherwise it is made for the API root
    followed by the target and the query parameters access_token (the
    credential), per_page=100 and page (the page number, 1 when no page
    is given). *)
Theorem request_url_of_target (net : list reply) (method : string) (token : value)
    (cb : callback) (page : option Z) :
  (has_protocol_marker method →
   head (trace (getRequest net method token cb page)) = Some (Request method)) ∧
  (¬ has_protocol_marker method →
   ∀ n : Z, page = None ∧ n = 1 ∨ page = Some n ∧ n ≠ 0 →
   head (trace (getRequest net method token cb page))
   = Some (Request (endpoint +:+ method +:+ "?access_token=" +:+ ToString token
                    +:+ "&per_page=100&page=" +:+ Number_toString n))).
Proof.
  split.
  - apply getRequest_verbatim.
  - intros H n Hn. rewrite getRequest_head. unfold request_url.
    destruct (includes "http" method) eqn:E.
    + exfalso. apply H. now apply includes_spec.
    + destruct Hn as [[-> ->]|[-> Hn]]; [reflexivity|].
      unfold page_or_1. now destruct (Z.eqb_spec n 0).
Qed.

Lemma request_url_of_target_witness :
  head (trace (getRequest [] example_next VNull (UserCb (VFun "done")) (Some 2)))
  = Some (Request example_next) ∧
  head (trace (getRequest [] "users/octocat/repos" (VStr "token")
                 (UserCb (VFun "done")) None))
  = Some (Request
            "https://api.github.com/users/octocat/repos?access_token=token&per_page=100&page=1").
Proof.
  split.
  - apply (proj1 (request_url_of_target [] example_next VNull
                    (UserCb (VFun "done")) (Some 2))).
    exists EmptyString, "s://api.github.com/user/repos?page=2&per_page=100".
    reflexivity.
  - refine (proj2 (request_url_of_target [] "users/octocat/repos" (VStr "token")
                     (UserCb (VFun "done")) None) _ 1 _).
    + intros H. apply includes_spec in H. vm_compute in H. discriminate.
    + left. split; reflexivity.
Defined.

(** C7, amended: for an empty or absent link header the fetcher does
    not call the parser at all (line 79 tests the header value first);
    it takes the page as the last one and completes with that page's
    parsed body.  The parser itself, applied to the empty string, throws. *)
Theorem empty_or_absent_link_header_completes (net : list reply) (method : string)
    (token : value) (f : string) (page : option Z) (data : value) :
  getRequest (Response 200 None (Normal data) :: net) method token (UserCb (VFun f)) page
  = ([Request (request_url method token page); Callback f None data], Normal tt) ∧
  getRequest (Response 200 (Some EmptyString) (Normal data) :: net)
    method token (UserCb (VFun f)) page
  = ([Request (request_url method token page); Callback f None data], Normal tt) ∧
  header_links None = Normal None ∧
  header_links (Some EmptyString) = Normal None ∧
  parseLinks EmptyString = Throw TypeError.
Proof.
  repeat split; rewrite getRequest_last; reflexivity.
Qed.

(** C10: there is a relative operation path, not a fully-qualified URL,
    that contains the text http (here through a substituted user name)
    and which the fetcher therefore requests verbatim, without the API
    root and without the access_token, per_page and page parameters. *)
Theorem relative_path_containing_http_used_verbatim :
  ∃ path : string,
    path = build_method "users/:user" [VStr "httpie"] ∧
    fully_qualified path = false ∧
    has_protocol_marker path ∧
    (∀ net token cb page,
       head (trace (getRequest net path token cb page)) = Some (Request path)) ∧
    ∀ token cb page,
      getRequest [] path token cb page
      ≠ ([Request (endpoint +:+ path +:+ "?access_token=" +:+ ToString token
                   +:+ "&per_page=100&page=" +:+ Number_toString (page_or_1 page))],
         Normal tt).
Proof.
  exists "users/httpie". split; [reflexivity|]. split; [reflexivity|].
  assert (Hm : has_protocol_marker "users/httpie")
    by (exists "users/", "ie"; reflexivity).
  split; [exact Hm|]. split.
  - intros net token cb page. now apply getRequest_verbatim.
  - intros token cb page. cbn [getRequest]. unfold tell, request_url.
    change (includes "http" "users/httpie") with true. cbv iota.
    intros [=].
Qed.

End PaginatingFetcher.

(** ** Properties of the route resolver *)

Module RouteResolver.
Import JS Values Adapter Spec StringFacts FetcherFacts RouteFacts.

(** C6: for every operation descriptor and every invocation (model
    token, positional arguments, credential, callback, all three
    present) whose number of positional arguments is the placeholder
    count of some template, the resolver takes the first such template
    in descriptor order, fills its placeholder segments with the
    positional arguments from left to right, leaves the literal segments
    as they are, joins the segments by a slash and hands that path, the
    credential and the callback to the fetcher at page 1. *)
Theorem route_selects_and_substitutes (paths : list string) (model : value)
    (positional : list value) (accessToken cb : value) (net : list reply) :
  model ≠ VUndefined →
  truthy accessToken = true →
  truthy cb = true →
  (∃ path, path ∈ paths ∧ numVars path = length positional) →
  ∃ before path after,
    paths = before ++ path :: after ∧
    Forall (fun p => numVars p ≠ length positional) before ∧
    numVars path = length positional ∧
    route paths (model :: positional ++ [accessToken; cb]) net
    = getRequest net (join "/" (fill (template_of path) positional))
        accessToken (UserCb cb) (Some 1).
Proof.
  intros Hmodel Htoken Hcb Hfits.
  destruct (select_first _ _ Hfits) as (before & path & after & Hsplit & Hb & Hp & Hs).
  exists before, path, after. repeat split; [exact Hsplit | exact Hb | exact Hp |].
  rewrite (route_invocation _ _ _ _ _ _ _ (invocation_full _ _ _ _)).
  rewrite Hcb, Htoken. cbn [negb orb].
  replace (match model with VUndefined => true | _ => false end) with false
    by now destruct model.
  rewrite route_loop_select, Hs, build_method_fill.
  now apply getRequest_page.
Qed.

Lemma route_selects_and_substitutes_witness :
  ∃ before path after,
    ["user"; "users/:user"; "repos/:owner/:repo"] = before ++ path :: after ∧
    Forall (fun p => numVars p ≠ 1%nat) before ∧
    numVars path = 1%nat ∧
    route ["user"; "users/:user"; "repos/:owner/:repo"]
      (VObj [] :: [VStr "octocat"] ++ [VStr "token"; VFun "done"]) []
    = getRequest [] (join "/" (fill (template_of path) [VStr "octocat"]))
        (VStr "token") (UserCb (VFun "done")) (Some 1).
Proof.
  apply (route_selects_and_substitutes
           ["user"; "users/:user"; "repos/:owner/:repo"]
           (VObj []) [VStr "octocat"] (VStr "token") (VFun "done") []).
  - discriminate.
  - reflexivity.
  - reflexivity.
  - exists "users/:user". split; [|reflexivity].
    apply elem_of_cons. right. apply elem_of_cons. now left.
Defined.

(** C8: for every invocation (model token, credential and callback
    present) whose number of positional arguments is the placeholder
    count of no template, the resolver calls the callback once, with an
    error whose message lists the templates, and issues no request. *)
Theorem route_no_matching_template (paths : list string) (model : value)
    (positional : list value) (accessToken : value) (f : string) (net : list reply) :
  model ≠ VUndefined →
  truthy accessToken = true →
  (∀ path, path ∈ paths → numVars path ≠ length positional) →
  route paths (model :: positional ++ [accessToken; VFun f]) net
  = ([Callback f (Some (no_template_error paths)) VUndefined], Normal tt) ∧
  requests_of (trace (route paths (model :: positional ++ [accessToken; VFun f]) net)) = [].
Proof.
  intros Hmodel Htoken Hnone.
  assert (Hrun : route paths (model :: positional ++ [accessToken; VFun f]) net
                 = ([Callback f (Some (no_template_error paths)) VUndefined], Normal tt)).
  { rewrite (route_invocation _ _ _ _ _ _ _ (invocation_full _ _ _ _)).
    rewrite Htoken. cbn [truthy negb orb].
    replace (match model with VUndefined => true | _ => false end) with false
      by now destruct model.
    now rewrite route_loop_select, (select_none _ _ Hnone). }
  split; [exact Hrun | now rewrite Hrun].
Qed.

Lemma route_no_matching_template_witness :
  route ["user"; "users/:user"]
    (VObj [] :: [VStr "octocat"; VStr "sails"] ++ [VStr "token"; VFun "done"]) []
  = ([Callback "done" (Some (no_template_error ["user"; "users/:user"])) VUndefined],
     Normal tt) ∧
  requests_of
    (trace (route ["user"; "users/:user"]
              (VObj [] :: [VStr "octocat"; VStr "sails"] ++ [VStr "token"; VFun "done"])
              [])) = [].
Proof.
  apply (route_no_matching_template ["user"; "users/:user"] (VObj [])
           [VStr "octocat"; VStr "sails"] (VStr "token") "done" []).
  - discriminate.
  - reflexivity.
  - intros path [->|[->|H]%elem_of_cons]%elem_of_cons;
      [discriminate | discriminate | now apply elem_of_nil in H].
Defined.



End RouteResolver.

(** ** Further properties of the link-header parser *)

Module ParserBehaviour.
Import JS Values Adapter Spec Behaviour StringFacts ParseLinksFacts LinkHeaderFacts.

#[local] Arguments String.append !_ _ / : simpl nomatch.
#[local] Arguments Ascii.eqb : simpl never.

Lemma parseLinks_loop_all (entries : list string) (links : gmap string string) :
  forallb matches_both entries = true →
  ∃ links', parseLinks_loop entries links = Normal links'.
Proof.
  revert links. induction entries as [|e entries IH]; intros links H.
  - now exists links.
  - cbn [forallb] in H. apply andb_prop in H as [He H].
    cbn [parseLinks_loop]. unfold matches_both in He.
    destruct (exec_rel (trim e)); [|discriminate].
    destruct (exec_source (trim e)); [|discriminate]. now apply IH.
Qed.

Lemma forallb_matches_false (entries : list string) :
  forallb matches_both entries = false →
  Exists (fun e => exec_rel (trim e) = None ∨ exec_source (trim e) = None) entries.
Proof.
  induction entries as [|e entries IH]; [discriminate|].
  cbn [forallb]. intros [H|H]%andb_false_iff.
  - apply Exists_cons_hd. unfold matches_both in H.
    destruct (exec_rel (trim e)); [|now left].
    destruct (exec_source (trim e)); [discriminate | now right].
  - apply Exists_cons_tl. now apply IH.
Qed.

(** X1: parseLinks is all or nothing.  When both patterns match every
    trimmed entry of the header it returns an object; as soon as one
    entry fails a pattern it throws a TypeError, whatever the other
    entries are. *)
Theorem parseLinks_all_or_nothing (linksHeader : string) :
  if forallb matches_both (split ","%char linksHeader)
  then ∃ links, parseLinks linksHeader = Normal links
  else parseLinks linksHeader = Throw TypeError.
Proof.
  destruct (forallb matches_both (split ","%char linksHeader)) eqn:E.
  - now apply parseLinks_loop_all.
  - apply parseLinks_malformed. now apply forallb_matches_false.
Qed.

Lemma record_last_named (entries : list entry) (links : gmap string string)
    (key : string) :
  key ≠ "__proto__" →
  foldl record links entries !! key
  = match last_named key entries with
    | Some url => Some url
    | None => links !! key
    end.
Proof.
  intros Hkey. revert links. induction entries as [|e entries IH]; intros links.
  - reflexivity.
  - cbn [foldl last_named]. rewrite IH.
    destruct (last_named key entries); [reflexivity|].
    unfold record, set_property.
    destruct (String.eqb_spec (entry_rel e) key) as [E|E].
    + case_decide; [congruence|]. rewrite E. apply lookup_insert_eq.
    + case_decide; [reflexivity|]. now apply lookup_insert_ne.
Qed.

Lemma record_no_proto (entries : list entry) (links : gmap string string) :
  foldl record links entries !! "__proto__" = links !! "__proto__".
Proof.
  revert links. induction entries as [|e entries IH]; intros links; [reflexivity|].
  cbn [foldl]. rewrite IH. unfold record, set_property.
  case_decide as E; [reflexivity|]. apply lookup_insert_ne. congruence.
Qed.

Lemma record_size_le (entries : list entry) (links : gmap string string) :
  (size (foldl record links entries) ≤ size links + length entries)%nat.
Proof.
  revert links. induction entries as [|e entries IH]; intros links.
  - cbn. lia.
  - cbn [foldl length]. etransitivity; [apply IH|].
    unfold record, set_property. case_decide; [lia|].
    rewrite map_size_insert. destruct (links !! entry_rel e); cbn; lia.
Qed.

(** X2: on a header of well-formed entries, with or without repeated
    relation names, the last entry of a name wins: each key other than
    __proto__ maps to the URL of the last entry that carries it, the key
    __proto__ is never set, and the object has at most as many keys as
    the header has entries. *)
Theorem parseLinks_last_entry_wins (entries : list entry) :
  entries ≠ [] →
  forallb well_formed entries = true →
  ∃ links : gmap string string,
    parseLinks (render_header entries) = Normal links ∧
    (∀ key, key ≠ "__proto__" → links !! key = last_named key entries) ∧
    links !! "__proto__" = None ∧
    (size links ≤ length entries)%nat.
Proof.
  intros Hne Hwf. destruct entries as [|e es]; [congruence|].
  exists (foldl record ∅ (e :: es)). split; [|split; [|split]].
  - now apply parseLinks_render_header.
  - intros key Hkey. rewrite (record_last_named _ _ _ Hkey).
    destruct (last_named key (e :: es)); [reflexivity | apply lookup_empty].
  - rewrite record_no_proto. apply lookup_empty.
  - etransitivity; [apply record_size_le|]. now rewrite map_size_empty.
Qed.

Lemma parseLinks_last_entry_wins_witness :
  let entries := spaced [("https://api.github.com/user/repos?page=2", "next");
                         ("https://api.github.com/user/repos?page=9", "last");
                         ("https://api.github.com/user/repos?page=3", "next")] in
  ∃ links : gmap string string,
    parseLinks (render_header entries) = Normal links ∧
    (∀ key, key ≠ "__proto__" → links !! key = last_named key entries) ∧
    links !! "__proto__" = None ∧
    (size links ≤ length entries)%nat.
Proof.
  cbn zeta.
  apply (parseLinks_last_entry_wins
           (spaced [("https://api.github.com/user/repos?page=2", "next");
                    ("https://api.github.com/user/repos?page=9", "last");
                    ("https://api.github.com/user/repos?page=3", "next")])).
  - discriminate.
  - reflexivity.
Defined.

End ParserBehaviour.

(** ** Further properties of the paginating fetcher *)

Module FetcherBehaviour.
Import JS Values Adapter Spec Behaviour StringFacts ParseLinksFacts LinkHeaderFacts.
Import FetcherFacts ParserBehaviour.

#[local] Arguments String.append !_ _ / : simpl nomatch.

(** *** One reply *)

Lemma getRequest_failure (r : reply) (net : list reply) (method : string)
    (token : value) (cb : callback) (page : option Z) (err : jserror) :
  failure_of r = Some err →
  getRequest (r :: net) method token cb page
  = after [Request (request_url method token page)] (call cb (Some err) VUndefined).
Proof.
  intros H. rewrite getRequest_unfold. destruct r as [e|statusCode link body].
  - now injection H as ->.
  - cbn [failure_of] in H. destruct (negb (statusCode =? 200)).
    + now injection H as <-.
    + destruct body; [discriminate | now injection H as ->].
Qed.

Lemma next_page_of_inv (r : reply) (next : string) :
  next_page_of r = Some next →
  ∃ link data, r = Response 200 link (Normal data) ∧
               next_of link = Normal (Some next) ∧ body_of r = Some data.
Proof.
  destruct r as [e|statusCode link [data|e]]; try discriminate.
  cbn [next_page_of body_of]. destruct (Z.eqb_spec statusCode 200) as [->|]; [|discriminate].
  destruct (next_of link) as [[n|]|] eqn:E; try discriminate.
  intros [= ->]. now exists link, data.
Qed.

Lemma bodies_cons (r : reply) (replies : list reply) (data : value) :
  body_of r = Some data → bodies (r :: replies) = data :: bodies replies.
Proof. intros H. unfold bodies. simpl. now rewrite H. Qed.

(** *** A chain of pages, whatever follows it *)

(* After the pages of a chain the fetch goes on with the rest of the
   script, under the closures the pages left. *)
Lemma getRequest_follow (F : callback → M unit) (replies : list reply)
    (nexts : list string) (rest : list reply) :
  (∀ method token cb page,
     getRequest rest method token cb page
     = after [Request (request_url method token page)] (F cb)) →
  Forall2 (fun r next => next_page_of r = Some next) replies nexts →
  ∀ method token cb page,
    0 < page_or_1 page →
    getRequest (replies ++ rest) method token cb page
    = after (Request (request_url method token page)
             :: next_requests (page_or_1 page) nexts)
        (F (wrap cb (bodies replies))).
Proof.
  intros Hrest Hchain.
  induction Hchain as [|r next replies nexts Hr _ IH]; intros method token cb page Hp.
  - cbn [app next_requests]. apply Hrest.
  - destruct (next_page_of_inv _ _ Hr) as (link & data & -> & Hnext & Hbody).
    cbn [app]. rewrite (getRequest_next _ _ _ _ _ _ _ _ Hnext).
    rewrite IH by (rewrite page_or_1_succ; lia).
    rewrite after_after, page_or_1_succ by exact Hp.
    now rewrite (bodies_cons _ _ _ Hbody).
Qed.

Lemma bodies_not_nil (replies : list reply) (nexts : list string) :
  Forall2 (fun r next => next_page_of r = Some next) replies nexts →
  replies ≠ [] → bodies replies ≠ [].
Proof.
  intros H Hne. destruct H as [|r next replies nexts Hr _]; [congruence|].
  destruct (next_page_of_inv _ _ Hr) as (link & data & -> & _ & Hbody).
  now rewrite (bodies_cons _ _ _ Hbody).
Qed.

(* Under at least one closure of lines 83-86 an error is lost. *)
Lemma call_wrap_error (cb : callback) (datas : list value) (err : jserror) (d : value) :
  datas ≠ [] →
  call (wrap cb datas) (Some err) d = ([], Throw (ReferenceError "e")).
Proof.
  intros Hne. destruct datas as [|d0 datas]; [congruence|]. clear Hne.
  cbn [wrap]. revert d0 cb. induction datas as [|d1 datas IH]; intros d0 cb.
  - reflexivity.
  - cbn [wrap]. apply IH.
Qed.

(* Under closures that hold arrays a result is prefixed with them. *)
Lemma call_wrap_arrays (cb : callback) (arrays : list (list value)) (v : value) :
  arrays ≠ [] →
  call (wrap cb (List.map VArr arrays)) None v
  = call cb None (VArr (List.concat arrays ++ spread v)).
Proof.
  intros Hne. destruct arrays as [|l arrays]; [congruence|]. clear Hne.
  revert l cb. induction arrays as [|l' arrays IH]; intros l cb.
  - cbn [List.map wrap List.concat call concat]. rewrite bind_lift_normal.
    now rewrite app_nil_r.
  - change (wrap cb (List.map VArr (l :: l' :: arrays)))
      with (wrap (PageCb (VArr l) cb) (List.map VArr (l' :: arrays))).
    rewrite IH, call_page_ok. cbn [List.concat]. now rewrite <- !app_assoc.
Qed.

(** *** The shape of every run *)

Lemma call_shape (cb : callback) (err : option jserror) (data : value) :
  fst (call cb err data) = [] ∨
  ∃ f e d, call cb err data = ([Callback f e d], Normal tt) ∧ root cb = VFun f.
Proof.
  revert err data. induction cb as [v|page_data outer IH]; intros err data.
  - destruct v; try (now left). right. now exists source, err, data.
  - cbn [call root]. destruct err; [now left|].
    destruct (concat page_data data) as [all|e].
    + rewrite bind_lift_normal. apply IH.
    + now left.
Qed.

Lemma getRequest_shape (net : list reply) (method : string) (token : value)
    (cb : callback) (page : option Z) :
  ∃ urls calls c,
    getRequest net method token cb page = (List.map Request urls ++ calls, c) ∧
    (1 ≤ length urls ≤ S (length net))%nat ∧
    (calls = [] ∨
     ∃ f err data, root cb = VFun f ∧ calls = [Callback f err data] ∧ c = Normal tt).
Proof.
  revert method token cb page.
  induction net as [|r net IH]; intros method token cb page.
  - exists [request_url method token page], [], (Normal tt).
    split; [reflexivity|]. split; [cbn; lia | now left].
  - assert (Hcall : ∀ err data,
      ∃ urls calls c,
        after [Request (request_url method token page)] (call cb err data)
        = (List.map Request urls ++ calls, c) ∧
        (1 ≤ length urls ≤ S (length (r :: net)))%nat ∧
        (calls = [] ∨
         ∃ f e d, root cb = VFun f ∧ calls = [Callback f e d] ∧ c = Normal tt)).
    { intros err data. destruct (call_shape cb err data) as [H|(f & e & d & H & Hroot)].
      - exists [request_url method token page], [], (snd (call cb err data)).
        unfold after. rewrite H. split; [reflexivity|]. split; [cbn; lia | now left].
      - exists [request_url method token page], [Callback f e d], (Normal tt).
        unfold after. rewrite H. split; [reflexivity|]. split; [cbn; lia|].
        right. now exists f, e, d. }
    rewrite getRequest_unfold. destruct r as [e|statusCode link body]; [apply Hcall|].
    destruct (negb (statusCode =? 200)); [apply Hcall|].
    destruct body as [data|e]; [|apply Hcall].
    destruct (header_links link) as [links|e].
    + rewrite bind_lift_normal. destruct (links_next links) as [next|]; [|apply Hcall].
      destruct (IH next VNull (PageCb data cb) (Some (page_or_1 page + 1)))
        as (urls & calls & c & -> & Hlen & Hcalls).
      exists (request_url method token page :: urls), calls, c.
      split; [reflexivity|]. split; [cbn [length]; lia | exact Hcalls].
    + exists [request_url method token page], [], (Throw e).
      split; [reflexivity|]. split; [cbn; lia | now left].
Qed.

(** X3: whatever the script of replies and whatever the arguments, a
    run of getRequest is a sequence of requests, at least one and at
    most one more than there are replies, followed by at most one call
    of the caller's callback; when the callback is called the run has
    completed normally, so no run both calls the callback and throws,
    and none calls it twice. *)
Theorem getRequest_calls_back_at_most_once (net : list reply) (method : string)
    (token cb : value) (page : option Z) :
  ∃ urls calls c,
    getRequest net method token (UserCb cb) page = (List.map Request urls ++ calls, c) ∧
    (1 ≤ length urls ≤ S (length net))%nat ∧
    (calls = [] ∨
     ∃ f err data, cb = VFun f ∧ calls = [Callback f err data] ∧ c = Normal tt).
Proof. apply (getRequest_shape net method token (UserCb cb) page). Qed.

(** X4: an error on any page after the first, however long the chain of
    pages before it, never reaches the caller: the requests for the chain
    and for the failing page are made, then the run ends with the
    ReferenceError of line 84, and the pages already fetched are lost. *)
Theorem later_page_failure_is_lost (replies : list reply) (nexts : list string)
    (r : reply) (rest : list reply) (method : string) (token : value)
    (cb : callback) (page : option Z) (err : jserror) :
  replies ≠ [] →
  Forall2 (fun r next => next_page_of r = Some next) replies nexts →
  failure_of r = Some err →
  0 < page_or_1 page →
  getRequest (replies ++ r :: rest) method token cb page
  = (Request (request_url method token page) :: next_requests (page_or_1 page) nexts,
     Throw (ReferenceError "e")).
Proof.
  intros Hne Hchain Hr Hp.
  rewrite (getRequest_follow (fun cb' => call cb' (Some err) VUndefined)
             replies nexts (r :: rest)); [| |exact Hchain|exact Hp].
  - rewrite call_wrap_error by now apply (bodies_not_nil _ nexts).
    unfold after. cbn [fst snd]. now rewrite app_nil_r.
  - intros m t cb' p. now apply getRequest_failure.
Qed.

Lemma later_page_failure_is_lost_witness :
  getRequest
    ([Response 200 (Some example_header) (Normal (VArr [VStr "a"]));
      Response 200 (Some example_header) (Normal (VArr [VStr "b"]))]
     ++ [Response 200 None (Throw (SyntaxError "Unexpected end of input"))])
    "user/repos" (VStr "token") (UserCb (VFun "done")) None
  = (Request (request_url "user/repos" (VStr "token") None)
     :: next_requests (page_or_1 None) [example_next; example_next],
     Throw (ReferenceError "e")).
Proof.
  apply (later_page_failure_is_lost
           [Response 200 (Some example_header) (Normal (VArr [VStr "a"]));
            Response 200 (Some example_header) (Normal (VArr [VStr "b"]))]
           [example_next; example_next]
           (Response 200 None (Throw (SyntaxError "Unexpected end of input")))
           [] "user/repos" (VStr "token") (UserCb (VFun "done")) None
           (SyntaxError "Unexpected end of input")).
  - discriminate.
  - repeat constructor.
  - reflexivity.
  - reflexivity.
Defined.

Lemma next_page_of_reply_of (pg : page) (next : string) :
  next_of (page_link pg) = Normal (Some next) → next_page_of (reply_of pg) = Some next.
Proof. intros H. unfold reply_of. cbn [next_page_of Z.eqb Pos.eqb]. now rewrite H. Qed.

Lemma bodies_reply_of (pages : list page) :
  bodies (List.map reply_of pages) = List.map VArr (List.map page_elements pages).
Proof.
  induction pages as [|pg pages IH]; [reflexivity|].
  cbn [List.map]. now rewrite (bodies_cons _ _ (VArr (page_elements pg))), IH.
Qed.

(** X5: after at least one page with an array body, a last page whose
    body is not an array is not spread: the callback receives the
    elements of the earlier pages followed by that body as one element
    (an array body is appended element by element). *)
Theorem last_page_body_is_appended (pages : list page) (nexts : list string)
    (link : option string) (data : value) (rest : list reply) (method : string)
    (token : value) (f : string) (page : option Z) :
  pages ≠ [] →
  Forall2 (fun pg next => next_of (page_link pg) = Normal (Some next)) pages nexts →
  next_of link = Normal None →
  0 < page_or_1 page →
  getRequest (List.map reply_of pages ++ Response 200 link (Normal data) :: rest)
    method token (UserCb (VFun f)) page
  = (Request (request_url method token page)
     :: next_requests (page_or_1 page) nexts
     ++ [Callback f None
           (VArr (List.concat (List.map page_elements pages) ++ spread data))],
     Normal tt).
Proof.
  intros Hne Hchain Hlink Hp.
  rewrite (getRequest_follow (fun cb' => call cb' None data) (List.map reply_of pages)
             nexts (Response 200 link (Normal data) :: rest)); [| | |exact Hp].
  - rewrite bodies_reply_of, call_wrap_arrays by now destruct pages.
    reflexivity.
  - intros m t cb' p. now apply getRequest_last.
  - clear Hne. induction Hchain as [|pg next pages nexts H _ IH]; cbn [List.map];
      constructor; [now apply next_page_of_reply_of | exact IH].
Qed.

Lemma last_page_body_is_appended_witness :
  getRequest
    (List.map reply_of [Page (Some example_header) [VStr "a"; VStr "b"]]
     ++ Response 200 None (Normal (VObj [("message", VStr "done")])) :: [])
    "user/repos" (VStr "token") (UserCb (VFun "done")) None
  = (Request (request_url "user/repos" (VStr "token") None)
     :: next_requests (page_or_1 None) [example_next]
     ++ [Callback "done" None
           (VArr (List.concat (List.map page_elements
                                 [Page (Some example_header) [VStr "a"; VStr "b"]])
                  ++ spread (VObj [("message", VStr "done")])))],
     Normal tt).
Proof.
  apply (last_page_body_is_appended
           [Page (Some example_header) [VStr "a"; VStr "b"]] [example_next]
           None (VObj [("message", VStr "done")]) []
           "user/repos" (VStr "token") "done" None).
  - discriminate.
  - repeat constructor.
  - reflexivity.
  - reflexivity.
Defined.

(** X6: the credential is not carried over to the next page.  When the
    advertised next URL does not contain the protocol marker, the second
    request is made for the API root followed by that URL with the
    credential printed as null and the page number increased by one. *)
Theorem relative_next_url_loses_credential (r : reply) (net : list reply)
    (next : string) (method : string) (token : value) (cb : callback)
    (page : option Z) :
  next_page_of r = Some next →
  ¬ has_protocol_marker next →
  0 < page_or_1 page →
  trace (getRequest (r :: net) method token cb page) !! 1%nat
  = Some (Request (endpoint +:+ next +:+ "?access_token=null&per_page=100&page="
                   +:+ Number_toString (page_or_1 page + 1))).
Proof.
  intros Hr Hrel Hp.
  destruct (next_page_of_inv _ _ Hr) as (link & data & -> & Hnext & _).
  rewrite (getRequest_next _ _ _ _ _ _ _ _ Hnext).
  change (trace (after [Request (request_url method token page)]
                   (getRequest net next VNull (PageCb data cb)
                      (Some (page_or_1 page + 1)))) !! 1%nat)
    with (trace (getRequest net next VNull (PageCb data cb)
                   (Some (page_or_1 page + 1))) !! 0%nat).
  rewrite <- head_lookup, getRequest_head. unfold request_url.
  destruct (includes "http" next) eqn:E.
  - exfalso. apply Hrel. now apply includes_spec.
  - now rewrite page_or_1_succ.
Qed.

Lemma relative_next_url_loses_credential_witness :
  trace (getRequest
           [Response 200
              (Some (render_header (spaced [("/user/repos?page=2", "next")])))
              (Normal (VArr []))]
           "user/repos" (VStr "token") (UserCb (VFun "done")) None) !! 1%nat
  = Some (Request (endpoint +:+ "/user/repos?page=2"
                   +:+ "?access_token=null&per_page=100&page="
                   +:+ Number_toString (page_or_1 None + 1))).
Proof.
  apply (relative_next_url_loses_credential
           (Response 200
              (Some (render_header (spaced [("/user/repos?page=2", "next")])))
              (Normal (VArr [])))
           [] "/user/repos?page=2" "user/repos" (VStr "token")
           (UserCb (VFun "done")) None).
  - vm_compute. reflexivity.
  - intros H. apply includes_spec in H. vm_compute in H. discriminate.
  - reflexivity.
Defined.

End FetcherBehaviour.

(** ** Further properties of the route resolver *)

Module RouteBehaviour.
Import JS Values Adapter Spec Behaviour StringFacts FetcherFacts RouteFacts.
Import FetcherBehaviour.

#[local] Arguments String.append !_ _ / : simpl nomatch.
#[local] Arguments Ascii.eqb : simpl never.

Lemma defined_model (model : value) :
  model ≠ VUndefined → match model with VUndefined => true | _ => false end = false.
Proof. now destruct model. Qed.

(* A call with the three fixed arguments present. *)
Lemma route_valid (paths : list string) (model : value) (positional : list value)
    (accessToken cb : value) (net : list reply) :
  model ≠ VUndefined → truthy accessToken = true → truthy cb = true →
  route paths (model :: positional ++ [accessToken; cb]) net
  = match select paths positional with
    | Some path =>
        getRequest net (join "/" (fill (template_of path) positional))
          accessToken (UserCb cb) (Some 1)
    | None => call_value cb (Some (no_template_error paths)) VUndefined
    end.
Proof.
  intros Hmodel Htoken Hcb.
  rewrite (route_invocation _ _ _ _ _ _ _ (invocation_full _ _ _ _)).
  rewrite Hcb, Htoken, (defined_model _ Hmodel). cbn [negb orb].
  rewrite route_loop_select. destruct (select paths positional) as [path|]; [|reflexivity].
  rewrite build_method_fill. now apply getRequest_page.
Qed.

(** *** Splitting and joining a path *)

Lemma join_split (sep : ascii) (s : string) :
  join (String sep EmptyString) (split sep s) = s.
Proof.
  induction s as [|c s IH]; [reflexivity|]. cbn [split].
  destruct (Ascii.eqb_spec c sep) as [->|_].
  - destruct (split sep s) as [|h t] eqn:E; [now apply split_not_nil in E|].
    cbn [join]. cbn [join] in IH. now rewrite IH.
  - destruct (split sep s) as [|h t] eqn:E; [now apply split_not_nil in E|].
    destruct t as [|h' t]; cbn [join] in *; now rewrite <- IH.
Qed.

Lemma count_split (c sep : ascii) (s : string) :
  sep ≠ c →
  sum_list (List.map (count_char c) (split sep s)) = count_char c s.
Proof.
  intros Hne. induction s as [|d s IH]; [reflexivity|]. cbn [split count_char].
  destruct (Ascii.eqb_spec d sep) as [->|_].
  - cbn [List.map sum_list count_char].
    destruct (Ascii.eqb_spec sep c); [contradiction | exact IH].
  - destruct (split sep s) as [|h t] eqn:E; [now apply split_not_nil in E|].
    cbn [List.map sum_list count_char] in *. unfold id in *.
    destruct (Ascii.eqb d c); lia.
Qed.

Lemma includes_marker_count (part : string) :
  includes ":" part = true → (1 ≤ count_char ":"%char part)%nat.
Proof.
  induction part as [|c part IH]; [discriminate|]. cbn [includes count_char String.prefix].
  destruct (Ascii.eqb_spec c ":"%char) as [->|Hne]; [lia|].
  destruct (ascii_dec ":" c) as [<-|_]; [contradiction|]. cbn [orb]. exact IH.
Qed.

Lemma placeholders_le_markers (parts : list string) :
  (placeholders parts ≤ sum_list (List.map (count_char ":"%char) parts))%nat.
Proof.
  unfold placeholders. induction parts as [|p parts IH]; [reflexivity|].
  cbn [List.filter List.map sum_list].
  unfold id in *. destruct (includes ":" p) eqn:E; cbn [length].
  - apply includes_marker_count in E. lia.
  - lia.
Qed.

Lemma map_parts_consumes (parts : list string) (args : list value) :
  snd (map_parts parts args) = drop (placeholders parts) args ∧
  length (fst (map_parts parts args)) = length parts.
Proof.
  unfold placeholders. revert args.
  induction parts as [|p parts IH]; intros args; [now rewrite drop_0|].
  cbn [map_parts List.filter]. destruct (includes ":" p).
  - destruct args as [|a args]; cbn [shift length].
    + destruct (IH []) as [H1 H2]. destruct (map_parts parts []) as [r a'].
      cbn [fst snd length] in *. split; [now rewrite H1, !drop_nil | now rewrite H2].
    + destruct (IH args) as [H1 H2]. destruct (map_parts parts args) as [r a'].
      cbn [fst snd length drop] in *. split; [exact H1 | now rewrite H2].
  - destruct (IH args) as [H1 H2]. destruct (map_parts parts args) as [r a'].
    cbn [fst snd length] in *. split; [exact H1 | now rewrite H2].
Qed.

(** X7: substitution takes the arguments from the front, one per
    segment that holds a marker, and never more than the template has
    markers: a template selected for its marker count is never filled
    from an exhausted argument array, the path keeps its number of
    segments, and the arguments beyond the placeholder segments (when a
    segment holds several markers) are left unused. *)
Theorem substitution_consumes_leading_arguments (path : string) (args : list value) :
  let parts := split "/"%char path in
  (placeholders parts ≤ numVars path)%nat ∧
  snd (map_parts parts args) = drop (placeholders parts) args ∧
  length (fst (map_parts parts args)) = length parts.
Proof.
  cbn zeta. split.
  - unfold numVars. rewrite <- (count_split ":"%char "/"%char path) by discriminate.
    apply placeholders_le_markers.
  - apply map_parts_consumes.
Qed.

Lemma map_parts_literal (parts : list string) (args : list value) :
  Forall (fun p => includes ":" p = false) parts →
  fst (map_parts parts args) = List.map VStr parts.
Proof.
  induction 1 as [|p parts Hp _ IH]; [reflexivity|].
  cbn [map_parts List.map]. rewrite Hp.
  destruct (map_parts parts args) as [r a']. cbn [fst] in *. now rewrite IH.
Qed.

Lemma no_marker_parts (path : string) :
  numVars path = 0%nat →
  Forall (fun p => includes ":" p = false) (split "/"%char path).
Proof.
  unfold numVars. rewrite <- (count_split ":"%char "/"%char path) by discriminate.
  induction (split "/"%char path) as [|p parts IH]; [constructor|].
  cbn [List.map sum_list]. unfold id in *. intros H. constructor.
  - destruct (includes ":" p) eqn:E; [|reflexivity].
    apply includes_marker_count in E. lia.
  - apply IH. lia.
Qed.

Lemma Array_join_strings (sep : string) (parts : list string) :
  Array_join sep (List.map VStr parts) = join sep parts.
Proof.
  unfold Array_join. f_equal. induction parts as [|p parts IH]; [reflexivity|].
  cbn [List.map]. now rewrite IH.
Qed.

(** X8: a template without markers is requested as it is written:
    splitting it at the slashes, mapping its segments and joining them
    again gives the template back, whatever arguments are passed. *)
Theorem marker_free_template_is_unchanged (path : string) (args : list value) :
  numVars path = 0%nat → build_method path args = path.
Proof.
  intros H. unfold build_method.
  rewrite map_parts_literal by now apply no_marker_parts.
  rewrite Array_join_strings. apply (join_split "/"%char).
Qed.

Lemma marker_free_template_is_unchanged_witness :
  build_method "user/repos" [VStr "unused"] = "user/repos".
Proof.
  apply (marker_free_template_is_unchanged "user/repos" [VStr "unused"]).
  reflexivity.
Defined.

(** X9: the operations on a user, called with model, credential and
    callback, fetch the path of the authenticated user (user, user/orgs,
    user/repos); called with one more argument they fetch the path of the
    user so named (users/NAME, users/NAME/orgs, users/NAME/repos), the
    name printed as Array.prototype.join prints it and not escaped. *)
Theorem user_operations_paths (model user accessToken cb : value) (net : list reply) :
  model ≠ VUndefined → truthy accessToken = true → truthy cb = true →
  getUser [model; accessToken; cb] net
  = getRequest net "user" accessToken (UserCb cb) (Some 1) ∧
  getUser [model; user; accessToken; cb] net
  = getRequest net ("users/" +:+ segment_text user) accessToken (UserCb cb) (Some 1) ∧
  getUserOrgs [model; accessToken; cb] net
  = getRequest net "user/orgs" accessToken (UserCb cb) (Some 1) ∧
  getUserOrgs [model; user; accessToken; cb] net
  = getRequest net ("users/" +:+ segment_text user +:+ "/orgs")
      accessToken (UserCb cb) (Some 1) ∧
  getUserRepos [model; accessToken; cb] net
  = getRequest net "user/repos" accessToken (UserCb cb) (Some 1) ∧
  getUserRepos [model; user; accessToken; cb] net
  = getRequest net ("users/" +:+ segment_text user +:+ "/repos")
      accessToken (UserCb cb) (Some 1).
Proof.
  intros Hm Ht Hc. repeat apply conj.
  - exact (route_valid ["user"; "users/:user"] model [] accessToken cb net Hm Ht Hc).
  - exact (route_valid ["user"; "users/:user"] model [user] accessToken cb net Hm Ht Hc).
  - exact (route_valid ["user/orgs"; "users/:user/orgs"] model [] accessToken cb net
             Hm Ht Hc).
  - exact (route_valid ["user/orgs"; "users/:user/orgs"] model [user] accessToken cb net
             Hm Ht Hc).
  - exact (route_valid ["user/repos"; "users/:user/repos"] model [] accessToken cb net
             Hm Ht Hc).
  - exact (route_valid ["user/repos"; "users/:user/repos"] model [user] accessToken cb net
             Hm Ht Hc).
Qed.

Lemma user_operations_paths_witness :
  getUserRepos [VObj []; VStr "octocat"; VStr "token"; VFun "done"] []
  = ([Request
        "https://api.github.com/users/octocat/repos?access_token=token&per_page=100&page=1"],
     Normal tt).
Proof.
  apply (proj2 (proj2 (proj2 (proj2 (proj2
           (user_operations_paths (VObj []) (VStr "octocat") (VStr "token") (VFun "done") []
              ltac:(discriminate) eq_refl eq_refl)))))).
Defined.

Lemma call_value_shape (cb : value) (err : option jserror) (data : value) :
  call_value cb err data = ([], Throw TypeError) ∨
  ∃ f, cb = VFun f ∧ call_value cb err data = ([Callback f err data], Normal tt).
Proof. destruct cb; try (now left). right. now exists source. Qed.

(** X10: whatever the templates, the arguments and the script of
    replies, a routed operation makes at most one request more than there
    are replies and calls back at most once, after its requests; when it
    calls back, the callback is the last argument of the invocation and
    the run has completed normally. *)
Theorem route_calls_back_at_most_once (paths : list string) (arguments : list value)
    (net : list reply) :
  ∃ urls calls c,
    route paths arguments net = (List.map Request urls ++ calls, c) ∧
    (length urls ≤ S (length net))%nat ∧
    (calls = [] ∨
     ∃ f err data, last arguments = Some (VFun f) ∧
                   calls = [Callback f err data] ∧ c = Normal tt).
Proof.
  destruct (invocation arguments) as [[[[model positional] accessToken] cb]|e] eqn:Hinv.
  - assert (Hlast : ∀ f, cb = VFun f → last arguments = Some (VFun f)).
    { intros f ->. destruct arguments as [|x [|y a]].
      - discriminate Hinv.
      - destruct x; try discriminate Hinv.
        rewrite invocation_single_number in Hinv.
        destruct ((0 <=? n) && (n <? 2 ^ 32)); discriminate Hinv.
      - unfold invocation in Hinv.
        rewrite Array_apply_elements in Hinv. cbn [shift] in Hinv.
        destruct (pop (y :: a)) as [c a1] eqn:Hpop. destruct (pop a1) as [t a2].
        injection Hinv as _ _ _ ->.
        unfold pop in Hpop. rewrite <- (rev_involutive (y :: a)).
        destruct (rev (y :: a)) as [|z r] eqn:Hrev.
        + apply (f_equal (@rev value)) in Hrev. rewrite rev_involutive in Hrev. discriminate.
        + injection Hpop as -> _. cbn [rev].
          change (x :: rev r ++ [VFun f]) with ((x :: rev r) ++ [VFun f]).
          apply last_snoc. }
    assert (Hcall : ∀ err data,
      ∃ urls calls c,
        call_value cb err data = (List.map Request urls ++ calls, c) ∧
        (length urls ≤ S (length net))%nat ∧
        (calls = [] ∨
         ∃ f e d, last arguments = Some (VFun f) ∧ calls = [Callback f e d]
                  ∧ c = Normal tt)).
    { intros err data. destruct (call_value_shape cb err data) as [->|(f & Hf & ->)].
      - exists [], [], (Throw TypeError). split; [reflexivity|]. split; [cbn; lia | now left].
      - exists [], [Callback f err data], (Normal tt).
        split; [reflexivity|]. split; [cbn; lia|]. right. exists f, err, data.
        split; [now apply Hlast | now split]. }
    rewrite (route_invocation _ _ _ _ _ _ _ Hinv).
    destruct (_ || _ || _).
    + destruct (truthy cb); [apply Hcall|].
      exists [], [], (Normal tt). split; [reflexivity|]. split; [cbn; lia | now left].
    + rewrite route_loop_select. destruct (select paths positional) as [path|]; [|apply Hcall].
      destruct (getRequest_shape net (build_method path positional) accessToken
                  (UserCb cb) None) as (urls & calls & c & -> & Hlen & Hcalls).
      exists urls, calls, c. split; [reflexivity|]. split; [lia|].
      destruct Hcalls as [->|(f & err & data & Hroot & -> & ->)]; [now left|].
      right. exists f, err, data. split; [now apply Hlast | now split].
  - rewrite (route_no_array _ _ _ _ Hinv).
    exists [], [], (Throw e). split; [reflexivity|]. split; [cbn; lia | now left].
Qed.

End RouteBehaviour.
